(** * vault-kubernetes synchronizer: a shallow embedding of
      [cmd/synchronizer/main.go] and the properties of its reconciliation

    The program reads the desired secrets from the environment, fetches each of
    them from Vault and creates or updates the Kubernetes secret of the same
    local name, then deletes the annotated secrets nobody asks for any more.

    Vault and the Kubernetes API server are the environment of the program.
    They are modelled by the content of the namespace ([local]), by what Vault
    answers to a read ([vault]) and by the errors a call to the Kubernetes
    client returns for another reason than that content ([k8sFault]); every
    call the program makes is recorded in a trace.  A call that returns an
    error has changed nothing, and nobody else writes to the namespace while
    the program runs.  The program itself
    is written in a state monad whose outcomes are the ways a Go function can
    end: it returns, it panics, or it calls [os.Exit].  Of what the program
    logs, only the error of [log.Fatal] is kept. *)

From Stdlib Require Import Strings.String Strings.Ascii Strings.Byte ZArith Lia.
From stdpp Require Import gmap strings list fin_maps.

(** ** The Go library functions the parser uses *)

Module GoStrings.

(** [strings.Split(s, sep)] for a separator of one byte: every piece between
    two separators, the empty ones included; the empty string gives one empty
    piece. *)
Fixpoint Split (s : string) (sep : ascii) : list string :=
  match s with
  | EmptyString => [EmptyString]
  | String a rest =>
      if decide (a = sep) then EmptyString :: Split rest sep
      else match Split rest sep with
           | piece :: pieces => String a piece :: pieces
           | [] => [String a EmptyString]
           end
  end.

(** [strings.Join(pieces, sep)], the inverse used to characterise [Split]. *)
Fixpoint Join (pieces : list string) (sep : ascii) : string :=
  match pieces with
  | [] => EmptyString
  | [piece] => piece
  | piece :: rest => piece +:+ String sep (Join rest sep)
  end.

Fixpoint Contains (s : string) (c : ascii) : bool :=
  match s with
  | EmptyString => false
  | String a rest => if decide (a = c) then true else Contains rest c
  end.

(** The loop of [path.Base] that strips the trailing slashes. *)
Fixpoint stripTrailingSlashes (p : string) : string :=
  match p with
  | EmptyString => EmptyString
  | String a rest =>
      match stripTrailingSlashes rest with
      | EmptyString => if decide (a = "/"%char) then EmptyString else String a EmptyString
      | r => String a r
      end
  end.

(** [path.Base]: the last element of the path, after its trailing slashes were
    removed; ["."] for the empty path and ["/"] for a path of slashes only. *)
Definition Base (p : string) : string :=
  match p with
  | EmptyString => "."
  | _ =>
      match last (Split (stripTrailingSlashes p) "/"%char) with
      | Some EmptyString | None => "/"
      | Some element => element
      end
  end.

End GoStrings.

Import GoStrings.

(** [strings.TrimSpace]: the string without its leading and trailing white
    space, which is that of [unicode.IsSpace].  A Go string is a sequence of
    bytes read as UTF-8; these are the white-space runes, by code point: the
    six of ASCII, U+0085, U+00A0 and those of the Unicode property. *)
Definition spaceRunes : list N :=
  [0x09; 0x0A; 0x0B; 0x0C; 0x0D; 0x20; 0x85; 0xA0; 0x1680;
   0x2000; 0x2001; 0x2002; 0x2003; 0x2004; 0x2005; 0x2006; 0x2007; 0x2008; 0x2009; 0x200A;
   0x2028; 0x2029; 0x202F; 0x205F; 0x3000]%N.

(** The UTF-8 encoding of a rune below U+10000. *)
Definition encodeRune (r : N) : string :=
  if (r <? 0x80)%N then String (ascii_of_N r) ""
  else if (r <? 0x800)%N then
    String (ascii_of_N (0xC0 + r / 0x40)) (String (ascii_of_N (0x80 + r mod 0x40)) "")
  else
    String (ascii_of_N (0xE0 + r / 0x1000))
      (String (ascii_of_N (0x80 + (r / 0x40) mod 0x40))
         (String (ascii_of_N (0x80 + r mod 0x40)) "")).

(** The decoder of Go reads one of these runes at the start of a string, or
    at its end, exactly when the string starts, or ends, with the bytes of its
    encoding: the encodings are the shortest ones, which is all the decoder
    accepts, and a malformed sequence is read as U+FFFD, which is no white
    space. *)
Definition whiteSpace : list string := encodeRune <$> spaceRunes.

Definition isWhite (w : string) : bool := bool_decide (w ∈ whiteSpace).

(** [strings.TrimLeftFunc(s, unicode.IsSpace)]: an encoding has one, two or
    three bytes. *)
Fixpoint trimLeft (s : string) : string :=
  match s with
  | EmptyString => EmptyString
  | String a r1 =>
      if isWhite (String a "") then trimLeft r1
      else match r1 with
           | EmptyString => s
           | String b r2 =>
               if isWhite (String a (String b "")) then trimLeft r2
               else match r2 with
                    | EmptyString => s
                    | String c r3 =>
                        if isWhite (String a (String b (String c ""))) then trimLeft r3
                        else s
                    end
           end
  end.

(** [strings.TrimRightFunc(s, unicode.IsSpace)]: with the rest trimmed, what
    is left is dropped too when it is one white-space rune. *)
Fixpoint trimRight (s : string) : string :=
  match s with
  | EmptyString => EmptyString
  | String a rest =>
      if isWhite (String a (trimRight rest)) then EmptyString
      else String a (trimRight rest)
  end.

Definition TrimSpace (s : string) : string := trimRight (trimLeft s).

(** ** Errors *)

(** The reason of a Kubernetes [StatusError], as [apierr.ReasonForError] reads it. *)
Inductive StatusReason :=
| StatusReasonNotFound
| StatusReasonAlreadyExists
| StatusReasonOther (reason : string).

(** The values of Go's [error] that reach the program, by where they are made. *)
Inductive error :=
| Errorf (msg : string)                              (* fmt.Errorf *)
| Wrap (cause : error) (msg : string)                (* errors.Wrap *)
| PathError (path : string)                          (* ioutil.ReadFile *)
| ClientError (msg : string)                         (* building a client *)
| ResponseError (msg : string)                       (* vaultClient.Logical().Read *)
| StatusError (reason : StatusReason) (msg : string) (* the Kubernetes API *).

(** [apierr.IsNotFound]; a nil error is not one. *)
Definition IsNotFound (err : option error) : bool :=
  match err with
  | Some (StatusError StatusReasonNotFound _) => true
  | _ => false
  end.

(** ** Data *)

Definition vaultAnnotation : string := "vault-secret".

(** A Go map is a reference: the program holds the address of its
    [map[string]string] values, and the maps themselves live in [heap]. *)
Abbreviation loc := nat (only parsing).

(** [corev1.Secret] as the program builds it in memory.  [Data] is made anew
    for every secret and never shared, so it is held by value; [Annotations]
    is the address of the map the program assigned to it. *)
Record Secret := mkSecret {
  Name : string;
  Data : gmap string (list byte);
  Annotations : loc;
}.

(** A secret as the API server stores it under its name: what the request body
    said when the call was made. *)
Record object := mkObject {
  objData : gmap string (list byte);
  objAnnotations : gmap string string;
}.

(** The dynamic type of a field of a Vault payload ([interface{}]). *)
Inductive value :=
| VString (s : string)
| VOther.

(** The dynamic type of an entry of [api.Secret.Data]. *)
Inductive untyped :=
| UMap (fields : gmap string value)   (* map[string]interface{} *)
| UOther.                             (* nil or any other type *)

(** What [Logical().Read] returns: an error, or a secret which may be nil. *)
Inductive readResult :=
| ReadErr (err : error)
| ReadNil
| ReadSecret (sdata : gmap string untyped).

Record config := mkConfig {
  VaultTokenPath : string;
  Secrets : gmap string string;  (* key = kubernetes secret name, value = vault secret name *)
  Namespace : string;
}.

(** ** The environment *)

(** The operating system side: environment variables, files, and whether the
    two clients can be built. *)
Record environ := mkEnviron {
  Getenv : string -> string;
  ReadFile : string -> error + string;
  InClusterConfig : option error;
  NewForConfig : option error;
  ReadEnvironment : option error;
  NewClient : option error;
}.

(** The network side.  Calls are numbered in the order the program makes them;
    [vault n path] is the answer of Vault when call [n] reads [path], and
    [k8sFault n] is the error call [n] to the Kubernetes client returns when
    it fails for another reason than the presence or absence of the secret:
    the client library refuses the request before it sends anything (an empty
    name, ["."], [".."], a name with a slash or a percent sign), the network
    or the permissions fail, or the API server refuses the object at
    validation (a name that is no DNS subdomain, a field key, the size) or at
    admission.  The program has no check of its own for any of these and only
    sees the error, so the model takes it as an answer of the environment. *)
Record cluster := mkCluster {
  vault : nat -> string -> readResult;
  k8sFault : nat -> option error;
}.

Inductive request :=
| VaultRead (path : string)
| SecretsGet (name : string)
| SecretsCreate (secret : Secret) (body : object)
| SecretsUpdate (secret : Secret) (body : object)
| SecretsList
| SecretsDelete (name : string).

(** A call and the error it returned ([None] for nil). *)
Inductive event := Called (rq : request) (err : option error).

Record state := mkState {
  local : gmap string object;         (* the secrets of the namespace, by name *)
  heap : list (gmap string string);   (* the map[string]string values made so far *)
  trace : list event;                 (* the calls made so far, oldest first *)
}.

Definition now (st : state) : nat := length (trace st).

Definition record (rq : request) (err : option error) (st : state) : state :=
  mkState (local st) (heap st) (trace st ++ [Called rq err]).

Definition setLocal (m : gmap string object) (st : state) : state :=
  mkState m (heap st) (trace st).

(** ** The monad of the program *)

Inductive outcome (A : Type) :=
| Returns (a : A)
| Panics
| Exits (code : Z).
Arguments Returns {A} a.
Arguments Panics {A}.
Arguments Exits {A} code.

Definition M (A : Type) : Type := state -> outcome A * state.

Definition ret {A} (a : A) : M A := fun st => (Returns a, st).
Definition panic {A} : M A := fun st => (Panics, st).
Definition exit {A} (code : Z) : M A := fun st => (Exits code, st).

Definition bind {A B} (m : M A) (k : A -> M B) : M B :=
  fun st =>
    match m st with
    | (Returns a, st') => k a st'
    | (Panics, st') => (Panics, st')
    | (Exits code, st') => (Exits code, st')
    end.

Notation "'let*' x ':=' m 'in' k" := (bind m (fun x => k))
  (at level 10, x name, m at level 100, k at level 200).

(** ** The calls of the two clients *)

(** [vaultClient.Logical().Read(path)]. *)
Definition vaultRead (env : cluster) (path : string) : M readResult :=
  fun st =>
    let r := vault env (now st) path in
    let err := match r with ReadErr e => Some e | _ => None end in
    (Returns r, record (VaultRead path) err st).

(** The error of call [n] to the Kubernetes client: the one of [k8sFault] if
    there is one, else what the content of the namespace says. *)
Definition answer (env : cluster) (n : nat) (healthy : option error) : option error :=
  match k8sFault env n with
  | Some e => Some e
  | None => healthy
  end.

Definition mustExist (m : gmap string object) (name : string) : option error :=
  match m !! name with
  | Some _ => None
  | None => Some (StatusError StatusReasonNotFound name)
  end.

Definition mustBeFree (m : gmap string object) (name : string) : option error :=
  match m !! name with
  | Some _ => Some (StatusError StatusReasonAlreadyExists name)
  | None => None
  end.

(** A call that changes the namespace to [m] when it succeeds. *)
Definition served (rq : request) (err : option error) (m : gmap string object)
    (st : state) : state :=
  record rq err (match err with Some _ => st | None => setLocal m st end).

(** [Secrets(ns).Get(name)]; the program only ever looks at the error.  A name
    the client library refuses makes the call fail whatever the namespace
    holds: that error is one of [k8sFault]. *)
Definition secretsGet (env : cluster) (name : string) : M (option error) :=
  fun st =>
    let err := answer env (now st) (mustExist (local st) name) in
    (Returns err, record (SecretsGet name) err st).

(** The request body of a secret: the client encodes the object when the call
    is made, reading the annotation map it points to at that moment. *)
Definition body (h : list (gmap string string)) (secret : Secret) : object :=
  mkObject (Data secret) (default ∅ (h !! Annotations secret)).

(** [Secrets(ns).Create(secret)]: refused when the name is taken, and, by
    [k8sFault], when the API server does not accept the object. *)
Definition secretsCreate (env : cluster) (secret : Secret) : M (option error) :=
  fun st =>
    let b := body (heap st) secret in
    let err := answer env (now st) (mustBeFree (local st) (Name secret)) in
    (Returns err,
     served (SecretsCreate secret b) err (<[Name secret := b]> (local st)) st).

(** [Secrets(ns).Update(secret)]: replaces the stored object by the body;
    refused when there is no object of that name, and, by [k8sFault], when
    the client library or the API server refuses the name or the object. *)
Definition secretsUpdate (env : cluster) (secret : Secret) : M (option error) :=
  fun st =>
    let b := body (heap st) secret in
    let err := answer env (now st) (mustExist (local st) (Name secret)) in
    (Returns err,
     served (SecretsUpdate secret b) err (<[Name secret := b]> (local st)) st).

(** [Secrets(ns).List]: every secret of the namespace, with its name. *)
Definition secretsList (env : cluster) : M (error + list (string * object)) :=
  fun st =>
    match k8sFault env (now st) with
    | Some e => (Returns (inl e), record SecretsList (Some e) st)
    | None => (Returns (inr (map_to_list (local st))), record SecretsList None st)
    end.

(** [Secrets(ns).Delete(name)]: refused when there is no object of that name,
    and, by [k8sFault], for any other reason. *)
Definition secretsDelete (env : cluster) (name : string) : M (option error) :=
  fun st =>
    let err := answer env (now st) (mustExist (local st) name) in
    (Returns err, served (SecretsDelete name) err (delete name (local st)) st).

(** [make(map[string]string)]: a new empty map, at the next free address. *)
Definition makeMap : M loc :=
  fun st => (Returns (length (heap st)),
             mkState (local st) (heap st ++ [∅]) (trace st)).

(** [m[k] = v] on the map at address [m]. *)
Definition mapAssign (m : loc) (k v : string) : M unit :=
  fun st => (Returns tt,
             mkState (local st) (alter (<[k := v]>) m (heap st)) (trace st)).

(** ** The program *)

(** The parser of [VAULT_SECRETS], lines 69 to 79: the key and the value one
    item stores in [c.Secrets]. *)
Definition secretEntry (item : string) : string * string :=
  let s := Split item ":"%char in
  let s0 := nth 0 s "" in
  let k := match s with
           | _ :: s1 :: _ => s1
           | _ => Base s0
           end in
  (k, s0).

Definition addSecret (secrets : gmap string string) (item : string) : gmap string string :=
  if decide (String.length item = 0) then secrets
  else <[(secretEntry item).1 := (secretEntry item).2]> secrets.

Definition parseSecrets (raw : string) : gmap string string :=
  foldl addSecret ∅ (Split raw ","%char).

Definition namespaceFile : string := "/var/run/secrets/kubernetes.io/serviceaccount/namespace".

Definition newFromEnvironment (os : environ) : error + config :=
  let tokenPath := Getenv os "VAULT_TOKEN_PATH" in
  if decide (tokenPath = "") then inl (Errorf "missing VAULT_TOKEN_PATH")
  else
    let secrets := parseSecrets (Getenv os "VAULT_SECRETS") in
    if decide (size secrets = 0) then
      inl (Errorf "no secrets to synchronize - check VAULT_SECRETS")
    else
      match ReadFile os namespaceFile with
      | inl err => inl (Wrap err "could not get namespace")
      | inr content =>
          match InClusterConfig os with
          | Some err => inl (Wrap err "failed to get k8s config")
          | None =>
              match NewForConfig os with
              | Some err => inl (Wrap err "failed to get k8s k8sClientset")
              | None =>
                  match ReadEnvironment os with
                  | Some err => inl (Wrap err "failed to read environment for vault")
                  | None =>
                      match NewClient os with
                      | Some err => inl (Wrap err "failed to create vault client")
                      | None => inr (mkConfig tokenPath secrets (TrimSpace content))
                      end
                  end
              end
          end
      end.

Definition loadToken (os : environ) (c : config) : error + string :=
  match ReadFile os (VaultTokenPath c) with
  | inl err => inl (Wrap err "could not get vault token")
  | inr content => inr content
  end.

(** [range c.Secrets] visits the entries of the map in an order Go does not
    fix.  The loops below take the order of the visit as [order]; it is a
    permutation of [map_to_list (Secrets c)]. *)

(** [checkSecrets]: the existence, not the content, of every secret. *)
Fixpoint checkSecrets (env : cluster) (order : list (string * string)) : M (option error) :=
  match order with
  | [] => ret None
  | (k, v) :: rest =>
      let* err := secretsGet env k in
      match err with
      | Some _ => ret (Some (Errorf ("secret " +:+ k +:+ " does not exist")))
      | None => checkSecrets env rest
      end
  end.

(** Lines 145 to 148: [s.Data["data"].(map[string]interface{})] and
    [[]byte(v.(string))] for each of its fields.  A failed type assertion
    panics: the result is [None]. *)
Definition toBytes (v : value) : option (list byte) :=
  match v with
  | VString s => Some (list_byte_of_string s)
  | VOther => None
  end.

Definition convertData (sdata : gmap string untyped) : option (gmap string (list byte)) :=
  match sdata !! "data" with
  | Some (UMap fields) =>
      if decide (map_Forall (fun _ v => is_Some (toBytes v)) fields)
      then Some (omap toBytes fields)
      else None
  | _ => None
  end.

(** The body of the first loop of [synchronize], lines 138 to 167, for the
    entry [(k, v)]; [Some err] stands for [return err], [None] for reaching the
    end of the body or its [continue]. *)
Definition synchronizeEntry (env : cluster) (annotations : loc) (k v : string)
  : M (option error) :=
  let* s := vaultRead env v in
  match s with
  | ReadErr err => ret (Some err)
  | ReadNil => panic
  | ReadSecret sdata =>
      match convertData sdata with
      | None => panic
      | Some data =>
          let* _ := mapAssign annotations vaultAnnotation v in
          let secret := mkSecret k data annotations in
          let* err := secretsGet env (Name secret) in
          if IsNotFound err then secretsCreate env secret
          else secretsUpdate env secret
      end
  end.

Fixpoint synchronizeEntries (env : cluster) (annotations : loc)
    (order : list (string * string)) : M (option error) :=
  match order with
  | [] => ret None
  | (k, v) :: rest =>
      let* err := synchronizeEntry env annotations k v in
      match err with
      | Some e => ret (Some e)
      | None => synchronizeEntries env annotations rest
      end
  end.

(** The second loop, lines 175 to 188, over the listed secrets. *)
Fixpoint deleteObsolete (env : cluster) (secrets : gmap string string)
    (items : list (string * object)) : M unit :=
  match items with
  | [] => ret tt
  | (name, s) :: rest =>
      match objAnnotations s !! vaultAnnotation with
      | None => deleteObsolete env secrets rest
      | Some _ =>
          match secrets !! name with
          | Some _ => deleteObsolete env secrets rest
          | None =>
              let* _ := secretsDelete env name in
              deleteObsolete env secrets rest
          end
      end
  end.

(** Lines 170 to 189. *)
Definition cleanup (env : cluster) (secrets : gmap string string) : M (option error) :=
  let* secretList := secretsList env in
  match secretList with
  | inl _ => exit 0
  | inr items =>
      let* _ := deleteObsolete env secrets items in
      ret None
  end.

(** [synchronize].  The token only authenticates the reads, whose answers are
    those of [vault env]. *)
Definition synchronize (env : cluster) (c : config) (order : list (string * string))
    (token : string) : M (option error) :=
  let* annotations := makeMap in
  let* err := synchronizeEntries env annotations order in
  match err with
  | Some e => ret (Some e)
  | None => cleanup env (Secrets c)
  end.

(** How the process ends: its exit status, and the error [log.Fatal] printed. *)
Record exitStatus := mkExit {
  code : Z;
  fatal : option error;
}.

Definition runMain (m : M (option error)) (wrap : error -> error) (st : state)
  : exitStatus * state :=
  match m st with
  | (Returns None, st') => (mkExit 0 None, st')
  | (Returns (Some err), st') => (mkExit 1 (Some (wrap err)), st')
  | (Panics, st') => (mkExit 2 None, st')
  | (Exits n, st') => (mkExit n None, st')
  end.

(** [main]. *)
Definition main (os : environ) (env : cluster) (order : list (string * string))
    (st : state) : exitStatus * state :=
  match newFromEnvironment os with
  | inl err => (mkExit 1 (Some (Wrap err "failed to get config")), st)
  | inr c =>
      match loadToken os c with
      | inl _ => runMain (checkSecrets env order) (fun err => err) st
      | inr token =>
          runMain (synchronize env c order token)
                  (fun err => Wrap err "failed to synchronize secrets") st
      end
  end.

(** ** The vocabulary of the properties *)

(** The items the parser keeps, and what it does with the entry of each. *)
Definition tokens (raw : string) : list string :=
  filter (fun t => t ≠ "") (Split raw ","%char).

Definition storeEntry (m : gmap string string) (e : string * string) : gmap string string :=
  <[e.1 := e.2]> m.

(** The calls made between two states of a run. *)
Definition callsSince (st st' : state) : list event := drop (now st) (trace st').

(** A managed object carries the marker annotation, whatever its value. *)
Definition managed (o : object) : Prop := is_Some (objAnnotations o !! vaultAnnotation).

Definition managedNames (m : gmap string object) : gset string :=
  dom (filter (fun e => managed e.2) m).

(** The object an entry asks for: the fields read from Vault, and the marker
    annotation with the source of the entry as its only annotation. *)
Definition built (data : gmap string (list byte)) (v : string) : object :=
  mkObject data {[vaultAnnotation := v]}.

(** The first loop of a run of [synchronize] started in [st] has visited the
    entries [visited] without an error and stands in [s]. *)
Definition applied (env : cluster) (st : state) (visited : list (string * string))
    (s : state) : Prop :=
  synchronizeEntries env (length (heap st)) visited (makeMap st).2 = (Returns None, s).



Definition isList (ev : event) : bool :=
  match ev with Called SecretsList _ => true | _ => false end.

Definition isDelete (ev : event) : bool :=
  match ev with Called (SecretsDelete _) _ => true | _ => false end.

Definition failed (ev : event) : bool :=
  match ev with Called _ (Some _) => true | _ => false end.

(** The secrets, as the program holds them in memory, that a run passed to
    [Create] or [Update]. *)
Definition written (ev : event) : option Secret :=
  match ev with
  | Called (SecretsCreate secret _) _ | Called (SecretsUpdate secret _) _ => Some secret
  | _ => None
  end.

(** Every written secret has an annotation map of its own. *)
Definition freshTagSets (calls : list event) : Prop :=
  NoDup (Annotations <$> omap written calls).

(** The annotations a secret in memory shows when the program looks at it. *)
Definition annotationsOf (st : state) (secret : Secret) : gmap string string :=
  default ∅ (heap st !! Annotations secret).

(** The annotation map of the loop holds nothing but the marker. *)
Definition annotationsAt (ann : loc) (st : state) : Prop :=
  ∃ m, heap st !! ann = Some m ∧ dom m ⊆ {[vaultAnnotation]}.

(** What one turn of the first loop does, told by the answers it gets: the
    read fails, or the payload has not the expected shape, or the secret is
    written with [Create] or [Update] according to the answer of [Get]. *)
Inductive entryStep (env : cluster) (ann : loc) (k v : string) (s : state)
  : outcome (option error) -> state -> Prop :=
| fetch_failed e :
    vault env (now s) v = ReadErr e ->
    entryStep env ann k v s (Returns (Some e)) (record (VaultRead v) (Some e) s)
| payload_panics :
    (vault env (now s) v = ReadNil
     ∨ ∃ sdata, vault env (now s) v = ReadSecret sdata ∧ convertData sdata = None) ->
    entryStep env ann k v s Panics (record (VaultRead v) None s)
| entry_written sdata data get err rq :
    vault env (now s) v = ReadSecret sdata ->
    convertData sdata = Some data ->
    get = answer env (S (now s)) (mustExist (local s) k) ->
    err = answer env (S (S (now s)))
            (if IsNotFound get then mustBeFree (local s) k else mustExist (local s) k) ->
    rq = (if IsNotFound get then SecretsCreate (mkSecret k data ann) (built data v)
          else SecretsUpdate (mkSecret k data ann) (built data v)) ->
    entryStep env ann k v s (Returns err)
      (mkState (match err with
                | Some _ => local s
                | None => <[k := built data v]> (local s)
                end)
               (alter (<[vaultAnnotation := v]>) ann (heap s))
               (trace s ++ [Called (VaultRead v) None; Called (SecretsGet k) get;
                            Called rq err])).

(** The calls the first loop may make over the entries [order]: reads of their
    sources, queries of their names, and writes of the object each asks for,
    all through the annotation map [ann]. *)
Definition loopCall (ann : loc) (order : list (string * string)) (ev : event) : Prop :=
  match ev with
  | Called (VaultRead path) _ => path ∈ order.*2
  | Called (SecretsGet name) _ => name ∈ order.*1
  | Called (SecretsCreate secret b) _ | Called (SecretsUpdate secret b) _ =>
      Annotations secret = ann
      ∧ ∃ v, (Name secret, v) ∈ order ∧ b = built (Data secret) v
  | _ => False
  end.

(** A listed secret is obsolete when it is managed and no entry has its name. *)
Definition obsolete (secrets : gmap string string) (item : string * object) : Prop :=
  managed item.2 ∧ secrets !! item.1 = None.

#[global] Instance obsolete_dec secrets item : Decision (obsolete secrets item).
Proof. unfold obsolete, managed. apply _. Defined.

(** The calls [dels] are the deletions of the secrets [items], one for each and
    in their order, whatever each returned. *)
Definition deletes (dels : list event) (items : list (string * object)) : Prop :=
  Forall2 (fun ev item => ∃ err, ev = Called (SecretsDelete item.1) err) dels items.

(** The existence query of the entry visited in position [i] of a check
    started in [st] reports the secret [name] as present. *)
Definition resolves (env : cluster) (st : state) (i : nat) (name : string) : Prop :=
  answer env (now st + i) (mustExist (local st) name) = None.

(** The error [checkSecrets] makes for a secret it did not get. *)
Definition missingSecret (name : string) : error :=
  Errorf ("secret " +:+ name +:+ " does not exist").

(** The environments and states of the examples. *)
Module Examples.

(** Vault holds one password under every path. *)
Definition okVault : nat -> string -> readResult :=
  fun _ path => ReadSecret {[ "data" := UMap {[ "password" := VString ("pw-" +:+ path) ]} ]}.

Definition denied : error := ResponseError "permission denied".
Definition timeout : error := StatusError (StatusReasonOther "Timeout") "timeout".

(** The fields [okVault] answers for [path], as the program converts them. *)
Definition password (path : string) : gmap string (list byte) :=
  {[ "password" := list_byte_of_string ("pw-" +:+ path) ]}.

(** Every call is served. *)
Definition quiet : cluster := mkCluster okVault (fun _ => None).

(** The API server fails call number [n], and only that one. *)
Definition failingAt (n : nat) : cluster :=
  mkCluster okVault
    (fun i => if decide (i = n) then Some timeout else None).

(** Vault refuses to read [path]. *)
Definition refusing (path : string) : cluster :=
  mkCluster
    (fun n p => if decide (p = path) then ReadErr denied else okVault n p)
    (fun _ => None).

Definition managedFrom (src : string) : object := mkObject ∅ {[ vaultAnnotation := src ]}.
Definition unmanaged : object := mkObject {[ "key" := [] ]} {[ "owner" := "someone" ]}.

(** A namespace with the managed secrets [a] and [c] and the secret [u] of
    somebody else. *)
Definition namespace0 : state :=
  mkState (list_to_map [("a", managedFrom "old/a"); ("c", managedFrom "old/c"); ("u", unmanaged)])
          [] [].

(** The desired secrets [a] and [b]. *)
Definition desired : config := mkConfig "/token" (parseSecrets "kv/a,kv/x:b") "default".

Definition desiredOrder : list (string * string) := [("a", "kv/a"); ("b", "kv/x")].

(** A process environment where the configuration is complete; the token file
    is there or not. *)
Definition processEnv (token : bool) : environ :=
  mkEnviron
    (fun name => if decide (name = "VAULT_TOKEN_PATH") then "/token"
                 else if decide (name = "VAULT_SECRETS") then "kv/a,kv/x:b" else "")
    (fun path => if decide (path = namespaceFile) then inr "default"
                 else if token then inr "s.token" else inl (PathError path))
    None None None None.

(** The same namespace with a second obsolete secret [e]. *)
Definition namespace1 : state :=
  mkState (<["e" := managedFrom "old/e"]> (local namespace0)) [] [].

(** A namespace that holds both desired secrets. *)
Definition namespace2 : state :=
  mkState (list_to_map [("a", managedFrom "kv/a"); ("b", managedFrom "kv/x")]) [] [].

(** Three entries, the second of which Vault refuses to read. *)
Definition threeEntries : list (string * string) :=
  [("a", "kv/a")] ++ ("b", "kv/x") :: [("d", "kv/d")].

(** The state of a run over [threeEntries] once its first entry is applied. *)
Definition afterFirst (env : cluster) (st : state) : state :=
  (synchronizeEntries env (length (heap st)) [("a", "kv/a")] (makeMap st).2).2.

(** The state of a run over [desiredOrder] once its first loop is over. *)
Definition afterLoop (env : cluster) (st : state) : state :=
  (synchronizeEntries env (length (heap st)) desiredOrder (makeMap st).2).2.

End Examples.

(** ** The vocabulary of the further properties *)

(** What a run leaves of a namespace when every call is served: the object
    built for every desired name, and the secrets without the marker under the
    other names. *)
Definition reconciled (secrets : gmap string string)
    (payload : string -> gmap string (list byte)) (m : gmap string object)
  : gmap string object :=
  ((fun v => built (payload v) v) <$> secrets) ∪ filter (fun e => ¬ managed e.2) m.

(** The successful query of the name of an entry. *)
Definition asked (entry : string * string) : event := Called (SecretsGet entry.1) None.

(** The error of a [VAULT_SECRETS] that names no secret, line 81. *)
Definition noSecrets : error := Errorf "no secrets to synchronize - check VAULT_SECRETS".

(** A path of [n] slashes. *)
Fixpoint slashes (n : nat) : string :=
  match n with
  | 0 => EmptyString
  | S n => String "/"%char (slashes n)
  end.

(** A string starts, or ends, with a white-space rune. *)
Definition startsWithSpace (s : string) : Prop := ∃ w r, w ∈ whiteSpace ∧ s = w +:+ r.
Definition endsWithSpace (s : string) : Prop := ∃ r w, w ∈ whiteSpace ∧ s = r +:+ w.

Definition joined (ws : list string) : string := foldr String.append "" ws.

(** [t] is [s] without its leading and trailing white space: [s] is [t]
    between two runs of white-space runes, and [t] has none at either end. *)
Definition trimmed (s t : string) : Prop :=
  ∃ l r, Forall (fun w => w ∈ whiteSpace) l ∧ Forall (fun w => w ∈ whiteSpace) r
         ∧ s = joined l +:+ t +:+ joined r
         ∧ ¬ startsWithSpace t ∧ ¬ endsWithSpace t.

(** The names Kubernetes accepts for a secret, after its documentation: a DNS
    subdomain of at most 253 bytes, that is, labels separated by dots, each
    made of lower-case letters, digits and hyphens and starting and ending
    with a letter or a digit.  The client library and the API server refuse
    every call for another name; the program checks nothing. *)
Definition alphanumeric (a : ascii) : bool :=
  let n := nat_of_ascii a in
  (97 <=? n) && (n <=? 122) || (48 <=? n) && (n <=? 57).

Definition validLabel (label : string) : bool :=
  match list_ascii_of_string label with
  | [] => false
  | a :: rest =>
      alphanumeric a && alphanumeric (List.last rest a)
      && forallb (fun b => alphanumeric b || bool_decide (b = "-"%char)) rest
  end.

Definition validName (name : string) : bool :=
  (String.length name <=? 253) && forallb validLabel (Split name "."%char).

(** More environments for the examples. *)
Module MoreExamples.

Import Examples.

(** Vault has nothing under [path]: the read returns a nil secret and no error. *)
Definition absent (path : string) : cluster :=
  mkCluster (fun n p => if decide (p = path) then ReadNil else okVault n p) (fun _ => None).

(** The desired secret [b] alone. *)
Definition desiredLater : config := mkConfig "/token" (parseSecrets "kv/x:b") "default".

(** The error of the client library for a request without a name. *)
Definition emptyName : error := Errorf "resource name may not be empty".

(** The client library refuses the calls number 1 and 2: the [Get] and the
    [Update] of a run whose first entry has the empty local name. *)
Definition refusingEmptyName : cluster :=
  mkCluster okVault (fun n => if decide (n = 1 ∨ n = 2) then Some emptyName else None).

(** A process environment that asks for the source [kv/a] under the empty
    local name. *)
Definition unnamed : environ :=
  mkEnviron
    (fun name => if decide (name = "VAULT_TOKEN_PATH") then "/token"
                 else if decide (name = "VAULT_SECRETS") then "kv/a:" else "")
    (fun path => if decide (path = namespaceFile) then inr "default" else inr "s.token")
    None None None None.

End MoreExamples.

(** * Properties *)

(** ** The parser *)

Example Split_example : Split "db/creds:app-db,,x" ","%char = ["db/creds:app-db"; ""; "x"].
Proof. reflexivity. Qed.

Example Split_empty : Split "" ","%char = [""].
Proof. reflexivity. Qed.

Example Base_examples :
  Base "db/creds" = "creds" /\ Base "secret/app/" = "app" /\ Base "plain" = "plain"
  /\ Base "" = "." /\ Base "///" = "/".
Proof. repeat split; reflexivity. Qed.

Section Parser.

Local Arguments String.append : simpl nomatch.

Implicit Types (s t raw : string) (sep : ascii).

Lemma Split_nonempty s sep : Split s sep ≠ [].
Proof.
  destruct s as [|a s]; simpl; [done|].
  case_decide; [done|]. by destruct (Split s sep).
Qed.

(** [Split] cuts at the separators and nowhere else: joining the pieces gives
    the string back, and no piece holds a separator. *)
Lemma Join_Split s sep : Join (Split s sep) sep = s.
Proof.
  induction s as [|a s IH]; simpl; [done|].
  case_decide as Ha.
  - subst a. pose proof (Split_nonempty s sep) as Hne.
    destruct (Split s sep) as [|p ps] eqn:E; [done|].
    simpl in *. by rewrite IH.
  - destruct (Split s sep) as [|p ps] eqn:E.
    + by destruct (Split_nonempty s sep).
    + destruct ps as [|q qs]; simpl in *; by rewrite <- IH.
Qed.

Lemma Split_pieces s sep : Forall (fun p => Contains p sep = false) (Split s sep).
Proof.
  induction s as [|a s IH]; simpl.
  - by constructor.
  - case_decide as Ha.
    + by constructor.
    + destruct (Split s sep) as [|p ps].
      * constructor; [|done]. simpl. by rewrite decide_False.
      * inversion IH; subst. constructor; [|done].
        simpl. by rewrite decide_False.
Qed.

Lemma Split_whole s sep : Contains s sep = false → Split s sep = [s].
Proof.
  induction s as [|a s IH]; simpl; [done|].
  case_decide; [done|]. intros Hc. by rewrite IH.
Qed.

Lemma Split_app s t sep :
  Split (s +:+ String sep t) sep = Split s sep ++ Split t sep.
Proof.
  induction s as [|a s IH]; simpl.
  - by rewrite decide_True.
  - case_decide; [by rewrite IH|].
    rewrite IH. pose proof (Split_nonempty s sep).
    by destruct (Split s sep).
Qed.

Lemma Split_cut s t sep :
  Contains s sep = false → Split (s +:+ String sep t) sep = s :: Split t sep.
Proof. intros Hc. by rewrite Split_app, Split_whole. Qed.

(** An item [sourceID:localName] stores [sourceID] under [localName]. *)
Lemma secretEntry_named src name :
  Contains src ":"%char = false → Contains name ":"%char = false →
  secretEntry (src +:+ ":" +:+ name) = (name, src).
Proof.
  intros Hs Hn. unfold secretEntry.
  change (":" +:+ name) with (String ":"%char name).
  by rewrite Split_cut, (Split_whole name).
Qed.

(** An item without a colon stores itself under the last element of its path. *)
Lemma secretEntry_plain src :
  Contains src ":"%char = false → secretEntry src = (Base src, src).
Proof. intros Hs. unfold secretEntry. by rewrite Split_whole. Qed.

Lemma Contains_app s t sep : Contains (s +:+ String sep t) sep = true.
Proof.
  induction s as [|a s IH]; simpl.
  - by rewrite decide_True.
  - by case_decide.
Qed.

(** A string that ends in a slash-free, non-empty element does not end in a
    slash, so [path.Base] strips nothing from it. *)
Lemma element_not_slash dir element q :
  element ≠ "" → Contains element "/"%char = false → dir +:+ element ≠ q +:+ "/".
Proof.
  intros Hne Hc. revert q. induction dir as [|a dir IH]; intros q Heq; simpl in Heq.
  - rewrite Heq in Hc. by rewrite Contains_app in Hc.
  - destruct q as [|b q]; simpl in Heq.
    + injection Heq as _ Heq. destruct dir; [done|discriminate].
    + injection Heq as _ Heq. by apply (IH q).
Qed.

Lemma stripTrailingSlashes_id p :
  (∀ q, p ≠ q +:+ "/") → stripTrailingSlashes p = p.
Proof.
  induction p as [|a p IH]; simpl; [done|].
  intros Hq. destruct p as [|b p].
  - simpl. case_decide as Ha; [|done]. subst a. by destruct (Hq "").
  - rewrite IH; [done|].
    intros q Hp. apply (Hq (String a q)). simpl. by rewrite Hp.
Qed.

Lemma append_assoc (x y z : string) : (x +:+ y) +:+ z = x +:+ (y +:+ z).
Proof. induction x as [|a x IH]; simpl; [done|]. by rewrite IH. Qed.

(** The last path segment: [Base] of [dir/element] and of [element] alone. *)
Lemma Base_element dir element :
  element ≠ "" → Contains element "/"%char = false →
  Base (dir +:+ "/" +:+ element) = element ∧ Base element = element.
Proof.
  intros Hne Hc. split.
  - unfold Base. destruct (dir +:+ "/" +:+ element) as [|a rest] eqn:E.
    { by destruct dir. }
    rewrite <- E. rewrite stripTrailingSlashes_id.
    2: { intros q. rewrite <- append_assoc. by apply element_not_slash. }
    change ("/" +:+ element) with (String "/"%char element).
    rewrite Split_app, (Split_whole element), last_snoc by done.
    by destruct element.
  - unfold Base. destruct element as [|a rest] eqn:E; [done|]. rewrite <- E in *.
    rewrite stripTrailingSlashes_id by (intros q; by apply (element_not_slash "")).
    rewrite Split_whole by done. simpl. by rewrite E.
Qed.

Lemma parseSecrets_tokens raw :
  parseSecrets raw = foldl storeEntry ∅ (secretEntry <$> tokens raw).
Proof.
  unfold parseSecrets, tokens. generalize (∅ : gmap string string).
  induction (Split raw ","%char) as [|t ts IH]; intros m; simpl; [done|].
  rewrite filter_cons. unfold addSecret at 2.
  destruct t as [|a t]; repeat case_decide; simpl in *; try done; apply IH.
Qed.

(** Storing the entries one after the other keeps, for every key, the value of
    the last entry that has it. *)
Lemma storeEntry_last (l : list (string * string)) k v :
  foldl storeEntry ∅ l !! k = Some v ↔
  ∃ i, l !! i = Some (k, v) ∧ ∀ j e, i < j → l !! j = Some e → e.1 ≠ k.
Proof.
  induction l as [|x l IH] using rev_ind.
  - simpl. rewrite lookup_empty. split; [done|]. by intros (i & Hi & _).
  - rewrite foldl_app. simpl. unfold storeEntry at 1.
    destruct (decide (x.1 = k)) as [Hk|Hk].
    + rewrite Hk, lookup_insert_eq. split.
      * intros [= <-]. exists (length l). split.
        { rewrite lookup_app_r, Nat.sub_diag by lia. simpl. by destruct x; simplify_eq/=. }
        intros j e Hj Hl. apply lookup_lt_Some in Hl. rewrite length_app in Hl.
        simpl in Hl. lia.
      * intros (i & Hi & Hlast).
        destruct (decide (i < length l)) as [Hlt|Hge].
        { exfalso. apply (Hlast (length l) x Hlt); [|done].
          by rewrite lookup_app_r, Nat.sub_diag by lia. }
        rewrite lookup_app_r in Hi by lia.
        destruct (i - length l) as [|n]; simpl in Hi; [|done].
        by injection Hi as ->.
    + rewrite lookup_insert_ne by done. rewrite IH. split.
      * intros (i & Hi & Hlast). exists i. split.
        { by rewrite lookup_app_l by (by eapply lookup_lt_Some). }
        intros j e Hj Hl. destruct (decide (j < length l)) as [Hlt|Hge].
        { rewrite lookup_app_l in Hl by done. by eapply Hlast. }
        rewrite lookup_app_r in Hl by lia.
        destruct (j - length l) as [|n]; simpl in Hl; [|done].
        by injection Hl as <-.
      * intros (i & Hi & Hlast).
        destruct (decide (i < length l)) as [Hlt|Hge].
        { exists i. rewrite lookup_app_l in Hi by done. split; [done|].
          intros j e Hj Hl. apply (Hlast j e Hj).
          by rewrite lookup_app_l by (by eapply lookup_lt_Some). }
        rewrite lookup_app_r in Hi by lia.
        destruct (i - length l) as [|n]; simpl in Hi; [|done].
        injection Hi as ->. by destruct Hk.
Qed.

Lemma parseSecrets_empty raw : parseSecrets raw = ∅ ↔ tokens raw = [].
Proof.
  rewrite parseSecrets_tokens. destruct (tokens raw) as [|t ts _] using rev_ind.
  - done.
  - rewrite fmap_app, foldl_app. simpl. unfold storeEntry at 1. split.
    + intros H. by apply insert_non_empty in H.
    + intros H. by apply app_nil in H as [_ ?].
Qed.

(** No item is kept exactly when the input is made of commas only. *)
Lemma tokens_empty raw :
  tokens raw = [] ↔ ∀ i a, String.get i raw = Some a → a = ","%char.
Proof.
  unfold tokens. induction raw as [|c raw IH]; simpl.
  - split; [done|]. intros _. rewrite filter_cons. by case_decide.
  - case_decide as Hc.
    + subst c. rewrite filter_cons. case_decide; [done|]. rewrite IH. split.
      * intros H' [|i] a; simpl; [by intros [= <-]|apply H'].
      * intros H' i a. apply (H' (S i) a).
    + pose proof (Split_nonempty raw ","%char).
      destruct (Split raw ","%char) as [|p ps]; [done|].
      rewrite filter_cons. case_decide as Hd; [|done]. split; [done|].
      intros H'. destruct Hc. by apply (H' 0).
Qed.

End Parser.

(** ** Trailing slashes *)

Section BaseMore.
Local Arguments String.append : simpl nomatch.

Lemma stripTrailingSlashes_slashes p n :
  stripTrailingSlashes (p +:+ slashes n) = stripTrailingSlashes p.
Proof.
  induction p as [|a p IH]; simpl.
  - induction n as [|n IHn]; simpl; [done|]. simpl in IHn. by rewrite IHn.
  - by rewrite IH.
Qed.

(** [path.Base] does not see the trailing slashes of a path that has more
    than slashes. *)
Lemma Base_trailing p n : p ≠ "" → Base (p +:+ slashes n) = Base p.
Proof.
  intros Hp. unfold Base. destruct p as [|a p]; [done|]. simpl.
  change (String a (p +:+ slashes n)) with (String a p +:+ slashes n).
  by rewrite stripTrailingSlashes_slashes.
Qed.

Lemma Base_slashes n : Base (slashes (S n)) = "/".
Proof.
  unfold Base. simpl.
  pose proof (stripTrailingSlashes_slashes "" n) as H. simpl in H. by rewrite H.
Qed.

(** The last element of a path, whatever slashes follow it. *)
Lemma Base_last_element dir element n :
  element ≠ "" → Contains element "/"%char = false →
  Base (dir +:+ "/" +:+ element +:+ slashes n) = element
  ∧ Base (element +:+ slashes n) = element.
Proof.
  intros Hne Hc. destruct (Base_element dir element Hne Hc) as [H1 H2]. split.
  - rewrite <- H1 at 2. rewrite <- !append_assoc. rewrite (append_assoc dir).
    apply Base_trailing. by destruct dir.
  - rewrite <- H2 at 2. by apply Base_trailing.
Qed.

End BaseMore.

(** What [newFromEnvironment] returns, by what the resolver found. *)
Lemma newFromEnvironment_secrets os :
  (∀ c, newFromEnvironment os = inr c →
     Secrets c = parseSecrets (Getenv os "VAULT_SECRETS")
     ∧ parseSecrets (Getenv os "VAULT_SECRETS") ≠ ∅)
  ∧ (newFromEnvironment os = inl noSecrets ↔
       Getenv os "VAULT_TOKEN_PATH" ≠ "" ∧ parseSecrets (Getenv os "VAULT_SECRETS") = ∅)
  ∧ (Getenv os "VAULT_TOKEN_PATH" = "" →
       newFromEnvironment os = inl (Errorf "missing VAULT_TOKEN_PATH"))
  ∧ (Getenv os "VAULT_TOKEN_PATH" ≠ "" → parseSecrets (Getenv os "VAULT_SECRETS") ≠ ∅ →
       ∀ content, ReadFile os namespaceFile = inr content →
         InClusterConfig os = None → NewForConfig os = None →
         ReadEnvironment os = None → NewClient os = None →
         ∃ c, newFromEnvironment os = inr c
              ∧ Secrets c = parseSecrets (Getenv os "VAULT_SECRETS")).
Proof.
  unfold newFromEnvironment, noSecrets. cbv zeta.
  destruct (decide (Getenv os "VAULT_TOKEN_PATH" = "")) as [Ht|Ht].
  { split_and!; try done. split; [done|]. by intros [? _]. }
  destruct (decide (size (parseSecrets (Getenv os "VAULT_SECRETS")) = 0)) as [Hz|Hz].
  { apply map_size_empty_iff in Hz. split_and!; try done. }
  assert (parseSecrets (Getenv os "VAULT_SECRETS") ≠ ∅) as Hne
    by (by intros ?%map_size_empty_iff).
  split_and!.
  - intros c.
    destruct (ReadFile os namespaceFile) as [e1|content]; [done|].
    destruct (InClusterConfig os) as [e2|]; [done|].
    destruct (NewForConfig os) as [e3|]; [done|].
    destruct (ReadEnvironment os) as [e4|]; [done|].
    destruct (NewClient os) as [e5|]; [done|]. by intros [= <-].
  - split; [|by intros [_ ?]].
    destruct (ReadFile os namespaceFile) as [e1|content]; [done|].
    destruct (InClusterConfig os) as [e2|]; [done|].
    destruct (NewForConfig os) as [e3|]; [done|].
    destruct (ReadEnvironment os) as [e4|]; [done|].
    by destruct (NewClient os) as [e5|].
  - done.
  - intros _ _ content -> -> -> -> ->. by eexists.
Qed.

(** Of an item with more than two parts the first two count. *)
Lemma secretEntry_parts (src name rest : string) :
  Contains src ":"%char = false → Contains name ":"%char = false →
  secretEntry (src +:+ ":" +:+ name +:+ ":" +:+ rest) = (name, src).
Proof.
  intros Hs Hn. unfold secretEntry.
  change (":" +:+ name +:+ ":" +:+ rest) with (String ":"%char (name +:+ String ":"%char rest)).
  by rewrite Split_cut, Split_cut.
Qed.

(** ** White space *)

Example TrimSpace_examples :
  TrimSpace (String "010"%char " default " +:+ String "010"%char "") = "default"
  ∧ TrimSpace (encodeRune 0xA0 +:+ "kube system" +:+ encodeRune 0x3000) = "kube system"
  ∧ TrimSpace (String "009"%char (encodeRune 0x2003)) = "".
Proof. split_and!; by vm_compute. Qed.

Section Trim.
Local Arguments String.append : simpl nomatch.
Implicit Types (s t w : string).

Lemma isWhite_elem w : isWhite w = true ↔ w ∈ whiteSpace.
Proof. unfold isWhite. by rewrite bool_decide_eq_true. Qed.

Lemma whiteSpace_length w :
  w ∈ whiteSpace → String.length w = 1 ∨ String.length w = 2 ∨ String.length w = 3.
Proof.
  revert w. apply Forall_forall. apply (bool_decide_unpack _). by vm_compute.
Qed.

Lemma length_append (x y : string) :
  String.length (x +:+ y) = String.length x + String.length y.
Proof. induction x as [|a x IH]; simpl; [done|]. by rewrite IH. Qed.

(** [trimLeft] takes white-space runes off the start, until there is none. *)
Lemma trimLeft_spec s :
  ∃ l, Forall (fun w => w ∈ whiteSpace) l ∧ s = joined l +:+ trimLeft s
       ∧ ¬ startsWithSpace (trimLeft s).
Proof.
  assert (Hind : ∀ n s, String.length s < n →
    ∃ l, Forall (fun w => w ∈ whiteSpace) l ∧ s = joined l +:+ trimLeft s
         ∧ ¬ startsWithSpace (trimLeft s)).
  2: { apply (Hind (S (String.length s))). lia. }
  clear s. induction n as [|n IH]; intros s Hlen; [lia|].
  assert (Hskip : ∀ w r, w ∈ whiteSpace → s = w +:+ r → trimLeft s = trimLeft r →
    ∃ l, Forall (fun w => w ∈ whiteSpace) l ∧ s = joined l +:+ trimLeft s
         ∧ ¬ startsWithSpace (trimLeft s)).
  { intros w r Hw -> Heq. destruct (IH r) as (l & Hl & Hr & Hno).
    - apply whiteSpace_length in Hw. rewrite length_append in Hlen. lia.
    - exists (w :: l). rewrite Heq. split_and!; [by constructor| |done].
      simpl. rewrite append_assoc. by rewrite <- Hr. }
  assert (Hstop : (∀ w r, w ∈ whiteSpace → s ≠ w +:+ r) → trimLeft s = s →
    ∃ l, Forall (fun w => w ∈ whiteSpace) l ∧ s = joined l +:+ trimLeft s
         ∧ ¬ startsWithSpace (trimLeft s)).
  { intros Hno Heq. exists []. rewrite Heq. split_and!; [done..|].
    intros (w & r & Hw & Hs). by apply (Hno w r). }
  destruct s as [|a [|b [|c r3]]].
  - apply Hstop; [|done]. intros w r Hw. apply whiteSpace_length in Hw.
    destruct w; simpl in *; [lia|done].
  - destruct (isWhite (String a "")) eqn:Ha.
    + apply (Hskip (String a "") ""); [by apply isWhite_elem|done|].
      cbn [trimLeft]. by rewrite Ha.
    + apply Hstop; [|cbn [trimLeft]; by rewrite Ha].
      intros w r Hw Hs. pose proof (whiteSpace_length w Hw) as Hl.
      destruct w as [|a' [|b' w]]; simpl in *; simplify_eq; try lia.
      apply isWhite_elem in Hw. congruence.
  - destruct (isWhite (String a "")) eqn:Ha.
    + apply (Hskip (String a "") (String b "")); [by apply isWhite_elem|done|].
      cbn [trimLeft]. by rewrite Ha.
    + destruct (isWhite (String a (String b ""))) eqn:Hb.
      * apply (Hskip (String a (String b "")) ""); [by apply isWhite_elem|done|].
        cbn [trimLeft]. by rewrite Ha, Hb.
      * apply Hstop; [|cbn [trimLeft]; by rewrite Ha, Hb].
        intros w r Hw Hs. pose proof (whiteSpace_length w Hw) as Hl.
        apply isWhite_elem in Hw.
        destruct w as [|a' [|b' [|c' w]]]; simpl in *; simplify_eq; try lia; congruence.
  - destruct (isWhite (String a "")) eqn:Ha.
    + apply (Hskip (String a "") (String b (String c r3))); [by apply isWhite_elem|done|].
      cbn [trimLeft]. by rewrite Ha.
    + destruct (isWhite (String a (String b ""))) eqn:Hb.
      * apply (Hskip (String a (String b "")) (String c r3)); [by apply isWhite_elem|done|].
        cbn [trimLeft]. by rewrite Ha, Hb.
      * destruct (isWhite (String a (String b (String c "")))) eqn:Hc.
        -- apply (Hskip (String a (String b (String c ""))) r3); [by apply isWhite_elem|done|].
           cbn [trimLeft]. by rewrite Ha, Hb, Hc.
        -- apply Hstop; [|cbn [trimLeft]; by rewrite Ha, Hb, Hc].
           intros w r Hw Hs. pose proof (whiteSpace_length w Hw) as Hl.
           apply isWhite_elem in Hw.
           destruct w as [|a' [|b' [|c' [|d' w]]]]; simpl in *; simplify_eq; try lia;
             congruence.
Qed.

(** [trimRight] takes white-space runes off the end, until there is none. *)
Lemma trimRight_spec s :
  ∃ r, Forall (fun w => w ∈ whiteSpace) r ∧ s = trimRight s +:+ joined r
       ∧ ¬ endsWithSpace (trimRight s).
Proof.
  induction s as [|a s (r & Hr & Hs & Hno)]; cbn [trimRight].
  - exists []. split_and!; [done..|]. intros (q & w & Hw & Hq).
    apply whiteSpace_length in Hw. destruct q, w; simpl in *; try done; lia.
  - destruct (isWhite (String a (trimRight s))) eqn:Ha.
    + exists (String a (trimRight s) :: r). split_and!.
      * constructor; [by apply isWhite_elem|done].
      * simpl. by rewrite <- Hs.
      * intros (q & w & Hw & Hq).
        apply whiteSpace_length in Hw. destruct q, w; simpl in *; try done; lia.
    + exists r. split_and!; [done|simpl; by rewrite <- Hs|].
      intros (q & w & Hw & Hq). destruct q as [|a' q]; simpl in Hq.
      * subst w. apply isWhite_elem in Hw. congruence.
      * injection Hq as <- Hq. apply Hno. by exists q, w.
Qed.

(** What [TrimSpace] gives is the string between its leading and its trailing
    white space. *)
Lemma TrimSpace_trimmed s : trimmed s (TrimSpace s).
Proof.
  unfold TrimSpace. destruct (trimLeft_spec s) as (l & Hl & Hs & Hno).
  destruct (trimRight_spec (trimLeft s)) as (r & Hr & Ht & Hno').
  exists l, r. split_and!; try done.
  - by rewrite <- Ht.
  - intros (w & x & Hw & Hx). apply Hno. exists w, (x +:+ joined r). split; [done|].
    rewrite Ht at 1. rewrite Hx. by rewrite append_assoc.
Qed.

End Trim.

(** ** The reconciler *)

Section Reconciler.

Context (env : cluster).
Implicit Types (s st : state) (k v name : string) (ann : loc).

Lemma now_record rq err s : now (record rq err s) = S (now s).
Proof. unfold now, record. simpl. rewrite length_app. simpl. lia. Qed.

Lemma marker_only (m : gmap string string) v :
  dom m ⊆ {[vaultAnnotation]} → <[vaultAnnotation := v]> m = {[vaultAnnotation := v]}.
Proof.
  intros Hd. apply map_eq. intros i.
  destruct (decide (i = vaultAnnotation)) as [->|Hi].
  - by rewrite lookup_insert_eq, lookup_singleton_eq.
  - rewrite lookup_insert_ne, lookup_singleton_ne by done.
    apply not_elem_of_dom. set_solver.
Qed.

Lemma synchronizeEntry_step ann k v s :
  annotationsAt ann s →
  entryStep env ann k v s (synchronizeEntry env ann k v s).1 (synchronizeEntry env ann k v s).2.
Proof.
  intros (m & Hm & Hd). unfold synchronizeEntry, bind, vaultRead.
  destruct (vault env (now s) v) as [e| |sdata] eqn:Hv; simpl.
  - by constructor.
  - constructor. by left.
  - destruct (convertData sdata) as [data|] eqn:Hc; simpl.
    2: { constructor. right. by exists sdata. }
    pose proof (entry_written env ann k v s sdata data _ _ _ Hv Hc eq_refl eq_refl eq_refl)
      as Hstep.
    unfold secretsGet, record, now in Hstep |- *. simpl in Hstep |- *.
    rewrite !length_app. simpl. rewrite !Nat.add_1_r.
    revert Hstep.
    destruct (IsNotFound _); intros Hstep;
      unfold secretsCreate, secretsUpdate, served, record, setLocal, body, now; simpl;
      rewrite !length_app; simpl; rewrite !Nat.add_1_r;
      rewrite list_lookup_alter_eq, Hm; simpl; rewrite (marker_only m v Hd);
      revert Hstep; destruct (answer env (S (S _)) _); simpl; intros Hstep;
      rewrite <- !app_assoc; simpl; exact Hstep.
Qed.

Lemma callsSince_app s s' new : trace s' = trace s ++ new → callsSince s s' = new.
Proof. intros H. unfold callsSince, now. by rewrite H, drop_app_length. Qed.

Lemma entryStep_annotationsAt ann k v s out s' :
  annotationsAt ann s → entryStep env ann k v s out s' → annotationsAt ann s'.
Proof.
  intros (m & Hm & Hd) Hstep.
  destruct Hstep as [e Hv|Hv|sdata data get err rq Hv Hc Hg He Hr]; simpl.
  { by exists m. }
  { by exists m. }
  exists (<[vaultAnnotation := v]> m). simpl. rewrite list_lookup_alter_eq, Hm. split; [done|].
  intros i [->|Hi]%elem_of_dom%lookup_insert_is_Some; [by apply elem_of_singleton|].
  apply Hd, elem_of_dom. tauto.
Qed.

Lemma synchronizeEntries_app ann pre post s :
  synchronizeEntries env ann (pre ++ post) s =
  match synchronizeEntries env ann pre s with
  | (Returns None, s1) => synchronizeEntries env ann post s1
  | r => r
  end.
Proof.
  revert s. induction pre as [|[k v] pre IH]; intros s; simpl; [done|].
  unfold bind. by destruct (synchronizeEntry env ann k v s) as [[[e|]| |n] s1].
Qed.

Lemma loopCall_mono ann order order' ev :
  (∀ e, e ∈ order → e ∈ order') → loopCall ann order ev → loopCall ann order' ev.
Proof.
  intros Hsub. destruct ev as [[p|n|sec b|sec b| |n] err]; simpl; try done.
  - intros (e & -> & He)%list_elem_of_fmap. by apply list_elem_of_fmap_2, Hsub.
  - intros (e & -> & He)%list_elem_of_fmap. by apply list_elem_of_fmap_2, Hsub.
  - intros [Ha (v & Hv & ->)]. split; [done|]. exists v. split; [by apply Hsub|done].
  - intros [Ha (v & Hv & ->)]. split; [done|]. exists v. split; [by apply Hsub|done].
Qed.

(** One turn of the loop touches no other name, keeps the size of the heap and
    makes calls of its entry only. *)
Lemma entryStep_frame ann k v s out s' :
  entryStep env ann k v s out s' →
  length (heap s') = length (heap s)
  ∧ (∀ name, name ≠ k → local s' !! name = local s !! name)
  ∧ ∃ new, trace s' = trace s ++ new ∧ Forall (loopCall ann [(k, v)]) new.
Proof.
  intros Hstep.
  destruct Hstep as [e Hv|Hv|sdata data get err rq Hv Hc Hg He Hr]; simpl.
  - split_and!; try done. eexists. split; [done|].
    apply Forall_singleton. simpl. by left.
  - split_and!; try done. eexists. split; [done|].
    apply Forall_singleton. simpl. by left.
  - split_and!.
    + by rewrite length_alter.
    + intros name Hne. destruct err; [done|]. by rewrite lookup_insert_ne.
    + eexists. split; [done|].
      apply Forall_cons; split; [simpl; by left|].
      apply Forall_cons; split; [simpl; by left|].
      apply Forall_singleton. subst rq.
      destruct (IsNotFound get); simpl; (split; [done|]); exists v; (split; [by left|done]).
Qed.

Lemma entryStep_written ann k v s s' :
  entryStep env ann k v s (Returns None) s' →
  ∃ sdata data, vault env (now s) v = ReadSecret sdata ∧ convertData sdata = Some data
                ∧ local s' !! k = Some (built data v).
Proof.
  intros Hstep. remember (Returns None) as o eqn:Ho.
  destruct Hstep as [e Hv|Hv|sdata data get err rq Hv Hc Hg He Hr]; try done.
  injection Ho as Ho. exists sdata, data. simpl. by rewrite Ho, lookup_insert_eq.
Qed.

(** What the first loop leaves behind, whatever its outcome. *)
Lemma synchronizeEntries_summary ann order s out s' :
  annotationsAt ann s →
  synchronizeEntries env ann order s = (out, s') →
  annotationsAt ann s'
  ∧ length (heap s') = length (heap s)
  ∧ (∃ new, trace s' = trace s ++ new ∧ Forall (loopCall ann order) new)
  ∧ (∀ name, name ∉ order.*1 → local s' !! name = local s !! name)
  ∧ (out = Returns None → NoDup order.*1 → ∀ k v, (k, v) ∈ order →
       ∃ n sdata data, vault env n v = ReadSecret sdata ∧ convertData sdata = Some data
                       ∧ local s' !! k = Some (built data v)).
Proof.
  revert s. induction order as [|[k v] order IH]; intros s Hann Hrun; simpl in Hrun.
  - injection Hrun as <- <-. split_and!; try done.
    + exists []. by rewrite app_nil_r.
    + intros _ _ k v Hin. by apply elem_of_nil in Hin.
  - unfold bind in Hrun.
    pose proof (synchronizeEntry_step ann k v s Hann) as Hstep.
    destruct (synchronizeEntry env ann k v s) as [o s1]. simpl in Hstep.
    pose proof (entryStep_annotationsAt _ _ _ _ _ _ Hann Hstep) as Hann1.
    destruct (entryStep_frame _ _ _ _ _ _ Hstep) as (Hheap1 & Hloc1 & new1 & Htr1 & Hnew1).
    assert (Hhead : Forall (loopCall ann ((k, v) :: order)) new1).
    { eapply Forall_impl; [exact Hnew1|]. intros ev. apply loopCall_mono.
      intros e He%list_elem_of_singleton. subst e. by left. }
    assert (Hstop : (o, s1) = (out, s') → out ≠ Returns None →
              annotationsAt ann s'
              ∧ length (heap s') = length (heap s)
              ∧ (∃ new, trace s' = trace s ++ new
                        ∧ Forall (loopCall ann ((k, v) :: order)) new)
              ∧ (∀ name, name ∉ ((k, v) :: order).*1 → local s' !! name = local s !! name)
              ∧ (out = Returns None → NoDup ((k, v) :: order).*1 → ∀ k' v',
                   (k', v') ∈ (k, v) :: order →
                   ∃ n sdata data, vault env n v' = ReadSecret sdata
                                   ∧ convertData sdata = Some data
                                   ∧ local s' !! k' = Some (built data v'))).
    { intros [= <- <-] Hout. split_and!; try done.
      - by exists new1.
      - intros name [Hne _]%not_elem_of_cons. by apply Hloc1. }
    destruct o as [[e|]| |n];
      try (unfold ret in Hrun; injection Hrun as <- <-; by apply Hstop).
    destruct (IH s1 Hann1 Hrun) as (Hann' & Hheap' & (new' & Htr' & Hnew') & Hloc' & Hok').
    split_and!; try done.
    + congruence.
    + exists (new1 ++ new'). rewrite Htr', Htr1, app_assoc. split; [done|].
      apply Forall_app. split; [done|]. eapply Forall_impl; [exact Hnew'|].
      intros ev. apply loopCall_mono. intros e He. by right.
    + intros name [Hne Hname]%not_elem_of_cons. rewrite Hloc' by done. by apply Hloc1.
    + intros -> Hnd k' v' Hin. simpl in Hnd. apply NoDup_cons in Hnd as [Hk Hnd].
      apply elem_of_cons in Hin as [[= -> ->]|Hin]; [|by apply (Hok' eq_refl Hnd)].
      rewrite Hloc' by done.
      destruct (entryStep_written _ _ _ _ _ Hstep) as (sdata & data & Hv & Hc & Ho).
      by exists (now s), sdata, data.
Qed.


(** The second loop tries every obsolete secret of the list, in order, and
    nothing else; it removes those whose deletion succeeds. *)
Lemma deleteObsolete_summary secrets items s :
  ∃ s' new,
    deleteObsolete env secrets items s = (Returns tt, s')
    ∧ heap s' = heap s
    ∧ trace s' = trace s ++ new
    ∧ Forall2 (fun ev item => ∃ err, ev = Called (SecretsDelete item.1) err)
        new (filter (obsolete secrets) items)
    ∧ (∀ name o, local s' !! name = Some o → local s !! name = Some o)
    ∧ (∀ name, Called (SecretsDelete name) None ∈ new → local s' !! name = None)
    ∧ (∀ name, Called (SecretsDelete name) None ∉ new → local s' !! name = local s !! name).
Proof.
  revert s. induction items as [|[name0 o] items IH]; intros s; simpl.
  - exists s, []. rewrite app_nil_r. split_and!; try done.
    intros name Hin. by apply elem_of_nil in Hin.
  - rewrite filter_cons.
    destruct (decide (obsolete secrets (name0, o))) as [[[src Hm] Hs]|Hobs]; simpl in *.
    2: { destruct (objAnnotations o !! vaultAnnotation) as [src|] eqn:Hm; [|apply IH].
         destruct (secrets !! name0) as [v|] eqn:Hs; [apply IH|].
         destruct Hobs. split; [unfold managed; simpl; by rewrite Hm|done]. }
    rewrite Hm, Hs.
    unfold bind, secretsDelete. simpl.
    set (err := answer env (now s) (mustExist (local s) name0)).
    set (s1 := served (SecretsDelete name0) err (delete name0 (local s)) s).
    destruct (IH s1) as (s' & new & Hrun & Hheap & Htr & Hcalls & Hgone & Hdel & Hkeep).
    exists s', (Called (SecretsDelete name0) err :: new).
    assert (Hs1 : heap s1 = heap s ∧ trace s1 = trace s ++ [Called (SecretsDelete name0) err]).
    { unfold s1, served, record, setLocal. by destruct err. }
    destruct Hs1 as [Hheap1 Htr1].
    split_and!.
    + done.
    + congruence.
    + rewrite Htr, Htr1, <- app_assoc. done.
    + constructor; [by exists err|done].
    + intros name o' Ho. apply Hgone in Ho. revert Ho.
      unfold s1, served, record, setLocal.
      destruct err as [e|]; simpl; [done|].
      intros Ho. by apply lookup_delete_Some in Ho as [_ Ho].
    + intros name Hin. apply elem_of_cons in Hin as [[= -> Herr]|Hin]; [|by apply Hdel].
      destruct (local s' !! name0) as [o'|] eqn:Ho; [|done].
      apply Hgone in Ho. revert Ho. unfold s1, served, record, setLocal.
      rewrite <- Herr. simpl. by rewrite lookup_delete_eq.
    + intros name Hout. apply not_elem_of_cons in Hout as [Hne Hout].
      rewrite Hkeep by done. unfold s1, served, record, setLocal.
      destruct err as [e|]; simpl; [done|].
      apply lookup_delete_ne. congruence.
Qed.

Lemma cleanup_run secrets s :
  match k8sFault env (now s) with
  | Some e => cleanup env secrets s = (Exits 0, record SecretsList (Some e) s)
  | None =>
      ∃ s' dels,
        cleanup env secrets s = (Returns None, s')
        ∧ heap s' = heap s
        ∧ trace s' = trace s ++ Called SecretsList None :: dels
        ∧ deletes dels (filter (obsolete secrets) (map_to_list (local s)))
        ∧ (∀ name o, local s' !! name = Some o → local s !! name = Some o)
        ∧ (∀ name, Called (SecretsDelete name) None ∈ dels → local s' !! name = None)
        ∧ (∀ name, Called (SecretsDelete name) None ∉ dels →
             local s' !! name = local s !! name)
  end.
Proof.
  unfold cleanup, bind, secretsList.
  destruct (k8sFault env (now s)) as [e|] eqn:Hf; [done|].
  destruct (deleteObsolete_summary secrets (map_to_list (local s))
              (record SecretsList None s))
    as (s' & dels & Hrun & Hheap & Htr & Hcalls & Hgone & Hdel & Hkeep).
  exists s', dels. rewrite Hrun. simpl in *.
  split_and!; try done. by rewrite Htr, <- app_assoc.
Qed.

Lemma deletes_obsolete secrets (m : gmap string object) dels name err :
  deletes dels (filter (obsolete secrets) (map_to_list m)) →
  Called (SecretsDelete name) err ∈ dels →
  ∃ o, m !! name = Some o ∧ managed o ∧ secrets !! name = None.
Proof.
  intros Hcalls Hin. apply list_elem_of_lookup in Hin as [i Hi].
  destruct (Forall2_lookup_l _ _ _ _ _ Hcalls Hi) as ([name' o] & Hitem & err' & Hev).
  injection Hev as -> _. simpl in *.
  apply list_elem_of_lookup_2, list_elem_of_filter in Hitem as [[Hm Hs] Hitem].
  apply elem_of_map_to_list in Hitem. by exists o.
Qed.

Lemma obsolete_deletes secrets (m : gmap string object) dels name o :
  deletes dels (filter (obsolete secrets) (map_to_list m)) →
  m !! name = Some o → managed o → secrets !! name = None →
  ∃ err, Called (SecretsDelete name) err ∈ dels.
Proof.
  intros Hcalls Hm Hman Hs.
  assert ((name, o) ∈ filter (obsolete secrets) (map_to_list m)) as Hin.
  { apply list_elem_of_filter. split; [done|]. by apply elem_of_map_to_list. }
  apply list_elem_of_lookup in Hin as [i Hi].
  destruct (Forall2_lookup_r _ _ _ _ _ Hcalls Hi) as (ev & Hev & err & ->).
  exists err. by eapply list_elem_of_lookup_2.
Qed.

Lemma synchronize_run c order token st :
  synchronize env c order token st =
  match synchronizeEntries env (length (heap st)) order (makeMap st).2 with
  | (Returns None, s1) => cleanup env (Secrets c) s1
  | r => r
  end.
Proof.
  unfold synchronize, bind. simpl.
  by destruct (synchronizeEntries env _ order _) as [[[e|]| |n] s1].
Qed.

Lemma makeMap_annotationsAt st : annotationsAt (length (heap st)) (makeMap st).2.
Proof.
  exists ∅. simpl. split; [|set_solver].
  by rewrite lookup_app_r, Nat.sub_diag by lia.
Qed.

Lemma elem_of_managedNames (m : gmap string object) name :
  name ∈ managedNames m ↔ ∃ o, m !! name = Some o ∧ managed o.
Proof.
  unfold managedNames. rewrite elem_of_dom. split.
  - intros [o Ho]. apply map_lookup_filter_Some in Ho as [Ho Hm]. by exists o.
  - intros (o & Ho & Hm). exists o. by apply map_lookup_filter_Some.
Qed.

Lemma range_entries (secrets : gmap string string) order :
  order ≡ₚ map_to_list secrets →
  NoDup order.*1 ∧ ∀ k v, (k, v) ∈ order ↔ secrets !! k = Some v.
Proof.
  intros Hperm. split.
  - rewrite Hperm. apply NoDup_fst_map_to_list.
  - intros k v. rewrite Hperm. apply elem_of_map_to_list.
Qed.

Lemma built_managed data v : managed (built data v).
Proof. exists v. apply lookup_singleton_eq. Qed.

Lemma applied_summary st visited s1 :
  applied env st visited s1 →
  annotationsAt (length (heap st)) s1
  ∧ (∃ new, trace s1 = trace st ++ new ∧ Forall (loopCall (length (heap st)) visited) new)
  ∧ (∀ name, name ∉ visited.*1 → local s1 !! name = local st !! name)
  ∧ (NoDup visited.*1 → ∀ k v, (k, v) ∈ visited →
       ∃ n sdata data, vault env n v = ReadSecret sdata ∧ convertData sdata = Some data
                       ∧ local s1 !! k = Some (built data v)).
Proof.
  intros Hrun.
  destruct (synchronizeEntries_summary _ _ _ _ _ (makeMap_annotationsAt st) Hrun)
    as (Hann & _ & Hnew & Hframe & Hok).
  split_and!; try done. by apply Hok.
Qed.

Lemma synchronize_from c token st pre rest s1 :
  applied env st pre s1 →
  synchronize env c (pre ++ rest) token st =
  match synchronizeEntries env (length (heap st)) rest s1 with
  | (Returns None, s2) => cleanup env (Secrets c) s2
  | r => r
  end.
Proof.
  intros Hpre. unfold applied in Hpre.
  by rewrite synchronize_run, synchronizeEntries_app, Hpre.
Qed.

Lemma loopCall_not_cleanup ann order ev :
  loopCall ann order ev → isList ev = false ∧ isDelete ev = false.
Proof. by destruct ev as [[] ?]. Qed.

(** The calls of a whole run: those of the first loop, then those of the
    cleanup. *)
Lemma synchronize_calls c order token st out st' :
  synchronize env c order token st = (out, st') →
  ∃ new rest,
    callsSince st st' = new ++ rest
    ∧ Forall (loopCall (length (heap st)) order) new
    ∧ Forall (fun ev => isList ev = true ∨ isDelete ev = true) rest.
Proof.
  intros Hrun. rewrite synchronize_run in Hrun.
  destruct (synchronizeEntries env _ order _) as [o s1] eqn:Hloop.
  destruct (synchronizeEntries_summary _ _ _ _ _ (makeMap_annotationsAt st) Hloop)
    as (_ & _ & (new & Htr & Hnew) & _).
  simpl in Htr.
  assert (Hstop : (o, s1) = (out, st') → ∃ new rest,
            callsSince st st' = new ++ rest
            ∧ Forall (loopCall (length (heap st)) order) new
            ∧ Forall (fun ev => isList ev = true ∨ isDelete ev = true) rest).
  { intros [= <- <-]. exists new, []. rewrite app_nil_r. split_and!; try done.
    by apply callsSince_app. }
  destruct o as [[e|]| |n]; try by apply Hstop.
  clear Hstop. pose proof (cleanup_run (Secrets c) s1) as Hc.
  destruct (k8sFault env (now s1)) as [e|].
  - rewrite Hrun in Hc. injection Hc as -> ->.
    exists new, [Called SecretsList (Some e)]. split_and!; try done.
    + apply callsSince_app. simpl. by rewrite Htr, <- app_assoc.
    + repeat constructor.
  - destruct Hc as (s2 & dels & Hrun2 & _ & Htr2 & Hcalls & _).
    rewrite Hrun in Hrun2. injection Hrun2 as -> <-.
    exists new, (Called SecretsList None :: dels). split_and!; try done.
    + apply callsSince_app. by rewrite Htr2, Htr, <- app_assoc.
    + constructor; [by left|].
      clear -Hcalls. induction Hcalls as [|ev item dels items [err ->] _ IH]; constructor.
      * by right.
      * done.
Qed.




(** After a run that returned nil and whose deletions all succeeded, the
    managed secrets are those of the desired names. *)
Lemma managed_after_run c order token st st' :
  order ≡ₚ map_to_list (Secrets c) →
  synchronize env c order token st = (Returns None, st') →
  Forall (fun ev => isDelete ev = true → failed ev = false) (callsSince st st') →
  ∀ name, (∃ o, local st' !! name = Some o ∧ managed o) ↔ is_Some (Secrets c !! name).
Proof.
  intros Hperm Hrun Hdels. apply range_entries in Hperm as [Hnd Hin].
  rewrite synchronize_run in Hrun.
  destruct (synchronizeEntries env _ order _) as [o s1] eqn:Hloop.
  destruct (synchronizeEntries_summary _ _ _ _ _ (makeMap_annotationsAt st) Hloop)
    as (_ & _ & (new & Htr & _) & Hframe & Hok).
  destruct o as [[e|]| |n]; try discriminate.
  specialize (Hok eq_refl Hnd).
  pose proof (cleanup_run (Secrets c) s1) as Hc.
  destruct (k8sFault env (now s1)) as [e|]; [congruence|].
  destruct Hc as (s2 & dels & Hrun2 & _ & Htr2 & Hcalls & Hgone & Hdel & Hkeep).
  rewrite Hrun in Hrun2. injection Hrun2 as <-.
  assert (Hall : ∀ name err, Called (SecretsDelete name) err ∈ dels → err = None).
  { intros name [e|] Hev; [|done]. exfalso.
    rewrite (callsSince_app st st' (new ++ Called SecretsList None :: dels)) in Hdels.
    - rewrite Forall_forall in Hdels. specialize (Hdels (Called (SecretsDelete name) (Some e))).
      simpl in Hdels. discriminate Hdels; [|done].
      apply elem_of_app. right. by right.
    - rewrite Htr2, Htr. simpl. by rewrite <- app_assoc. }
  intros name. split.
  - intros (o & Ho & Hman).
    destruct (Secrets c !! name) as [v|] eqn:Hs; [by exists v|]. exfalso.
    pose proof (Hgone _ _ Ho) as Ho1.
    destruct (obsolete_deletes (Secrets c) (local s1) dels name o Hcalls Ho1 Hman Hs)
      as [err Hev].
    rewrite (Hall _ _ Hev) in Hev. rewrite (Hdel _ Hev) in Ho. done.
  - intros [v Hv]. destruct (Hok name v) as (n & sdata & data & _ & _ & Ho).
    { by apply Hin. }
    exists (built data v). split; [|apply built_managed].
    rewrite Hkeep; [done|]. intros Hev.
    destruct (deletes_obsolete _ _ _ _ _ Hcalls Hev) as (o & _ & _ & Hs). congruence.
Qed.

Lemma resolves_next s i name rq err :
  resolves env (record rq err s) i name ↔ resolves env s (S i) name.
Proof.
  unfold resolves. rewrite now_record.
  by replace (S (now s) + i) with (now s + S i) by lia.
Qed.

(** [checkSecrets] asks for the secrets in the order of the visit and stops at
    the first that does not resolve, whose name its error carries. *)
Lemma checkSecrets_run order s :
  ∃ out s' gets,
    checkSecrets env order s = (Returns out, s')
    ∧ local s' = local s
    ∧ trace s' = trace s ++ gets
    ∧ Forall (fun ev => ∃ name err, ev = Called (SecretsGet name) err ∧ name ∈ order.*1) gets
    ∧ (out = None → ∀ i k v, order !! i = Some (k, v) → resolves env s i k)
    ∧ (∀ err, out = Some err →
         ∃ i k v, order !! i = Some (k, v) ∧ ¬ resolves env s i k ∧ err = missingSecret k
                  ∧ ∀ j k' v', j < i → order !! j = Some (k', v') → resolves env s j k')
    ∧ (∀ i k v, order !! i = Some (k, v) → ¬ resolves env s i k →
         (∀ j k' v', j < i → order !! j = Some (k', v') → resolves env s j k') →
         out = Some (missingSecret k)).
Proof.
  revert s. induction order as [|[k v] order IH]; intros s; simpl.
  - exists None, s, []. rewrite app_nil_r. split_and!; try done.
  - unfold bind, secretsGet.
    destruct (answer env (now s) (mustExist (local s) k)) as [e|] eqn:Hget.
    + eexists _, _, [_]. split; [done|]. split_and!; try done.
      * apply Forall_singleton. eexists _, _. split; [done|]. by left.
      * intros err [= <-]. exists 0, k, v. split_and!; try done.
        { unfold resolves. rewrite Nat.add_0_r, Hget. done. }
        intros j k' v' Hj. lia.
      * intros [|i] k' v' Hi Hno Hfirst.
        { by injection Hi as -> ->. }
        exfalso. specialize (Hfirst 0 k v). unfold resolves in Hfirst.
        rewrite Nat.add_0_r, Hget in Hfirst. discriminate Hfirst; [lia|done].
    + destruct (IH (record (SecretsGet k) None s))
        as (out & s' & gets & Hrun & Hloc & Htr & Hgets & Hnone & Hsome & Hfirst).
      exists out, s', (Called (SecretsGet k) None :: gets). split; [done|].
      split_and!; try done.
      * rewrite Htr. simpl. by rewrite <- app_assoc.
      * constructor.
        { eexists _, _. split; [done|]. by left. }
        eapply Forall_impl; [exact Hgets|]. intros ev (name & err & -> & Hin).
        eexists _, _. split; [done|]. by right.
      * intros Hout [|i] k' v' Hi.
        { injection Hi as <- <-. unfold resolves. by rewrite Nat.add_0_r. }
        apply (proj1 (resolves_next s i k' (SecretsGet k) None)). by eapply Hnone.
      * intros err Hout.
        destruct (Hsome err Hout) as (i & k' & v' & Hi & Hno & -> & Hbefore).
        exists (S i), k', v'. split_and!; try done.
        { intros Hres. apply Hno.
          by apply (proj2 (resolves_next s i k' (SecretsGet k) None)). }
        intros [|j] k'' v'' Hj Hj'.
        { injection Hj' as <- <-. unfold resolves. by rewrite Nat.add_0_r. }
        apply (proj1 (resolves_next s j k'' (SecretsGet k) None)).
        apply (Hbefore j k'' v''); [lia|done].
      * intros [|i] k' v' Hi Hno Hbefore.
        { injection Hi as <- <-. destruct Hno. unfold resolves. by rewrite Nat.add_0_r. }
        apply (Hfirst i k' v' Hi).
        { intros Hres. apply Hno. by apply (proj1 (resolves_next s i k' (SecretsGet k) None)). }
        intros j k'' v'' Hj Hj'. apply (proj2 (resolves_next s j k'' (SecretsGet k) None)).
        apply (Hbefore (S j) k'' v''); [lia|done].
Qed.

End Reconciler.

(** * The claims *)

Import Examples.
Import MoreExamples.

(** C1.  Convergence.  When [synchronize] returns nil for a desired mapping,
    visited in any order, and every deletion of its cleanup succeeded, the
    names of the secrets of the namespace that carry the marker annotation are
    exactly the local names of the desired mapping. *)
Theorem convergence env c order token st st' :
  order ≡ₚ map_to_list (Secrets c) →
  synchronize env c order token st = (Returns None, st') →
  Forall (fun ev => isDelete ev = true → failed ev = false) (callsSince st st') →
  managedNames (local st') = dom (Secrets c).
Proof.
  intros Hperm Hrun Hdels. apply set_eq. intros name.
  rewrite elem_of_managedNames, elem_of_dom.
  by apply (managed_after_run env c order token st st').
Qed.

(** The example of the specification: [a] and [b] desired, [a] and [c] managed
    before the run; afterwards [a] and [b] are. *)
Lemma convergence_witness :
  desiredOrder ≡ₚ map_to_list (Secrets desired)
  ∧ managedNames (local namespace0) = {["a"; "c"]}
  ∧ managedNames (local (synchronize quiet desired desiredOrder "s.token" namespace0).2)
    = dom (Secrets desired)
  ∧ dom (Secrets desired) = ({["a"; "b"]} : gset string).
Proof.
  split; [by vm_compute|]. split; [by vm_compute|]. split; [|by vm_compute].
  apply (convergence quiet desired desiredOrder "s.token" namespace0).
  - by vm_compute.
  - by vm_compute.
  - apply (bool_decide_unpack _). by vm_compute.
Defined.

(** A nil secret, or a payload of another shape, is no error for the program:
    the run then panics at the conversion, right after the read, and makes no
    further call. *)
Lemma payload_panic_aborts env c token st pre k v post s1 :
  applied env st pre s1 →
  (vault env (now s1) v = ReadNil
   ∨ ∃ sdata, vault env (now s1) v = ReadSecret sdata ∧ convertData sdata = None) →
  synchronize env c (pre ++ (k, v) :: post) token st
  = (Panics, record (VaultRead v) None s1).
Proof.
  intros Hpre Hv. rewrite (synchronize_from env c token st pre _ s1 Hpre). simpl.
  unfold bind, synchronizeEntry, bind, vaultRead.
  destruct Hv as [->|(sdata & -> & Hc)]; simpl; [done|]. by rewrite Hc.
Qed.

(** C2.  Where the run does not end with an error.  When Vault has nothing
    under the source of an entry, [Read] returns a nil secret and a nil error:
    the test of line 141 lets it pass and line 146 dereferences it.  The run
    panics right after that read, with the entries applied before left as
    they are and no further call, but it returns no error, and the process
    ends with status 2 and nothing from [log.Fatal]. *)
Theorem not_found_panics env c token st pre k v post s1 wrap :
  applied env st pre s1 →
  vault env (now s1) v = ReadNil →
  synchronize env c (pre ++ (k, v) :: post) token st
  = (Panics, record (VaultRead v) None s1)
  ∧ (∀ e st', synchronize env c (pre ++ (k, v) :: post) token st ≠ (Returns (Some e), st'))
  ∧ (runMain (synchronize env c (pre ++ (k, v) :: post) token) wrap st).1 = mkExit 2 None.
Proof.
  intros Hpre Hv.
  assert (synchronize env c (pre ++ (k, v) :: post) token st
          = (Panics, record (VaultRead v) None s1)) as Hrun.
  { apply payload_panic_aborts; [done|by left]. }
  unfold runMain. rewrite Hrun. by split_and!.
Qed.

Lemma not_found_panics_witness :
  applied (absent "kv/x") namespace0 [("a", "kv/a")] (afterFirst (absent "kv/x") namespace0)
  ∧ vault (absent "kv/x") (now (afterFirst (absent "kv/x") namespace0)) "kv/x" = ReadNil
  ∧ synchronize (absent "kv/x") desired threeEntries "s.token" namespace0
    = (Panics, record (VaultRead "kv/x") None (afterFirst (absent "kv/x") namespace0))
  ∧ (runMain (synchronize (absent "kv/x") desired threeEntries "s.token")
       (fun err => Wrap err "failed to synchronize secrets") namespace0).1
    = mkExit 2 None.
Proof.
  split; [by vm_compute|]. split; [by vm_compute|].
  destruct (not_found_panics (absent "kv/x") desired "s.token" namespace0
              [("a", "kv/a")] "b" "kv/x" [("d", "kv/d")]
              (afterFirst (absent "kv/x") namespace0)
              (fun err => Wrap err "failed to synchronize secrets"))
    as (Hrun & _ & Hexit).
  - by vm_compute.
  - by vm_compute.
  - by split.
Defined.

(** C3.  Deletion scoping.  Every [Delete] of the cleanup names a secret that
    was in the namespace when it was listed, carried the marker annotation and
    is no key of the desired mapping; a secret without the marker, and a
    secret whose name is desired, are still there unchanged afterwards. *)
Theorem deletion_scoping env secrets s out s' :
  cleanup env secrets s = (out, s') →
  (∀ name err, Called (SecretsDelete name) err ∈ callsSince s s' →
     ∃ o, local s !! name = Some o ∧ managed o ∧ secrets !! name = None)
  ∧ (∀ name o, local s !! name = Some o → ¬ managed o → local s' !! name = Some o)
  ∧ (∀ name o, local s !! name = Some o → is_Some (secrets !! name) →
       local s' !! name = Some o).
Proof.
  intros Hrun. pose proof (cleanup_run env secrets s) as Hc.
  destruct (k8sFault env (now s)) as [e|].
  - rewrite Hrun in Hc. injection Hc as -> ->.
    rewrite (callsSince_app s _ [Called SecretsList (Some e)]) by done.
    split_and!; try done.
    intros name err Hin. apply list_elem_of_singleton in Hin. done.
  - destruct Hc as (s2 & dels & Hrun2 & Hheap & Htr & Hcalls & Hgone & Hdel & Hkeep).
    rewrite Hrun in Hrun2. injection Hrun2 as -> <-.
    rewrite (callsSince_app s s' _ Htr).
    assert (Hscope : ∀ name err, Called (SecretsDelete name) err ∈ dels →
              ∃ o, local s !! name = Some o ∧ managed o ∧ secrets !! name = None).
    { intros name err. by apply deletes_obsolete. }
    split_and!.
    + intros name err Hin. apply elem_of_cons in Hin as [[=]|Hin]. by eapply Hscope.
    + intros name o Hm Hun. rewrite Hkeep; [done|].
      intros Hin. destruct (Hscope _ _ Hin) as (o' & Hm' & Hman & _). congruence.
    + intros name o Hm [v Hv]. rewrite Hkeep; [done|].
      intros Hin. destruct (Hscope _ _ Hin) as (o' & _ & _ & Hs). congruence.
Qed.

Lemma deletion_scoping_witness :
  cleanup quiet (Secrets desired) namespace0
  = (Returns None, (cleanup quiet (Secrets desired) namespace0).2)
  ∧ callsSince namespace0 (cleanup quiet (Secrets desired) namespace0).2
    = [Called SecretsList None; Called (SecretsDelete "c") None]
  ∧ local (cleanup quiet (Secrets desired) namespace0).2 !! "u" = Some unmanaged
  ∧ local (cleanup quiet (Secrets desired) namespace0).2 !! "a" = Some (managedFrom "old/a").
Proof.
  assert (cleanup quiet (Secrets desired) namespace0
          = (Returns None, (cleanup quiet (Secrets desired) namespace0).2)) as Hrun
    by (by vm_compute).
  destruct (deletion_scoping quiet (Secrets desired) namespace0 _ _ Hrun) as (_ & Hun & Hin).
  split; [exact Hrun|]. split; [by vm_compute|]. split.
  - apply Hun; [by vm_compute|]. intros [src Hsrc]. by vm_compute in Hsrc.
  - apply Hin; [by vm_compute|]. exists "kv/a". by vm_compute.
Defined.

(** Over a whole run, whatever its outcome: a secret without the marker whose
    name is not desired is left as it was. *)
Corollary unmanaged_untouched env c order token st out st' name o :
  order ≡ₚ map_to_list (Secrets c) →
  synchronize env c order token st = (out, st') →
  local st !! name = Some o → ¬ managed o → Secrets c !! name = None →
  local st' !! name = Some o.
Proof.
  intros Hperm Hrun Ho Hun Hs. apply range_entries in Hperm as [_ Hin].
  assert (name ∉ order.*1) as Hname.
  { intros ([k v] & -> & Hkv)%list_elem_of_fmap. apply Hin in Hkv. simpl in Hs. congruence. }
  rewrite synchronize_run in Hrun.
  destruct (synchronizeEntries env _ order _) as [o1 s1] eqn:Hloop.
  destruct (synchronizeEntries_summary env _ _ _ _ _ (makeMap_annotationsAt st) Hloop)
    as (_ & _ & _ & Hframe & _).
  specialize (Hframe name Hname). simpl in Hframe. rewrite Ho in Hframe.
  destruct o1 as [[e|]| |n]; try (by injection Hrun as <- <-).
  pose proof (cleanup_run env (Secrets c) s1) as Hc.
  destruct (k8sFault env (now s1)) as [e|].
  - rewrite Hrun in Hc. by injection Hc as -> ->.
  - destruct Hc as (s2 & dels & Hrun2 & _ & _ & Hcalls & _ & _ & Hkeep).
    rewrite Hrun in Hrun2. injection Hrun2 as -> <-.
    rewrite Hkeep; [done|]. intros Hev.
    destruct (deletes_obsolete _ _ _ _ _ Hcalls Hev) as (o' & Ho' & Hman & _). congruence.
Qed.

(** C4.  Cleanup failures are not fatal.  Once the first loop has applied every
    entry: if [List] fails the run ends with [os.Exit(0)], having changed and
    called nothing else; otherwise the run returns nil after one [Delete] for
    every obsolete secret of the listing, whatever the other deletions
    returned.  The process exits with status 0 either way. *)
Theorem cleanup_not_fatal env c order token st s1 :
  applied env st order s1 →
  ∃ out st',
    synchronize env c order token st = (out, st')
    ∧ match k8sFault env (now s1) with
      | Some e =>
          out = Exits 0 ∧ local st' = local s1
          ∧ callsSince s1 st' = [Called SecretsList (Some e)]
      | None =>
          out = Returns None
          ∧ ∃ dels, callsSince s1 st' = Called SecretsList None :: dels
                    ∧ deletes dels (filter (obsolete (Secrets c)) (map_to_list (local s1)))
      end
    ∧ ∀ wrap, (runMain (synchronize env c order token) wrap st).1 = mkExit 0 None.
Proof.
  intros Hloop. unfold applied in Hloop.
  unfold runMain. rewrite synchronize_run, Hloop.
  pose proof (cleanup_run env (Secrets c) s1) as Hc.
  destruct (k8sFault env (now s1)) as [e|].
  - rewrite Hc. eexists _, _. split; [done|]. split; [|done].
    split_and!; try done. by apply callsSince_app.
  - destruct Hc as (s' & dels & Hrun & _ & Htr & Hcalls & _).
    rewrite Hrun. eexists _, _. split; [done|]. split; [|done].
    split; [done|]. exists dels. split; [|done]. by apply callsSince_app.
Qed.

(** A failed deletion of [c] is followed by the deletion of [e], and a failed
    [List] ends the run with status 0. *)
Lemma cleanup_not_fatal_witness :
  applied (failingAt 7) namespace1 desiredOrder (afterLoop (failingAt 7) namespace1)
  ∧ (∃ st',
       synchronize (failingAt 7) desired desiredOrder "s.token" namespace1 = (Returns None, st')
       ∧ callsSince (afterLoop (failingAt 7) namespace1) st'
         = [Called SecretsList None; Called (SecretsDelete "c") (Some timeout);
            Called (SecretsDelete "e") None])
  ∧ (runMain (synchronize (failingAt 7) desired desiredOrder "s.token")
       (fun err => Wrap err "failed to synchronize secrets") namespace1).1 = mkExit 0 None
  ∧ (synchronize (failingAt 6) desired desiredOrder "s.token" namespace1).1 = Exits 0.
Proof.
  assert (applied (failingAt 7) namespace1 desiredOrder (afterLoop (failingAt 7) namespace1))
    as Hloop by (by vm_compute).
  destruct (cleanup_not_fatal (failingAt 7) desired desiredOrder "s.token" namespace1 _ Hloop)
    as (out & st' & Hrun & _ & Hexit).
  split; [exact Hloop|]. split; [|split; [apply Hexit|]].
  - exists (synchronize (failingAt 7) desired desiredOrder "s.token" namespace1).2.
    split; by vm_compute.
  - assert (applied (failingAt 6) namespace1 desiredOrder (afterLoop (failingAt 6) namespace1))
      as Hloop6 by (by vm_compute).
    destruct (cleanup_not_fatal (failingAt 6) desired desiredOrder "s.token" namespace1 _ Hloop6)
      as (out6 & st6 & Hrun6 & Hcase & _).
    rewrite Hrun6. simpl.
    assert (k8sFault (failingAt 6) (now (afterLoop (failingAt 6) namespace1)) = Some timeout)
      as Hf by (by vm_compute).
    rewrite Hf in Hcase. by destruct Hcase as [-> _].
Defined.

(** C5.  Degraded mode.  When the token file cannot be read, [main] only asks
    the API server for the desired names, one [Get] each and no call to Vault,
    and changes nothing.  If every name resolves the process exits with
    status 0; if some name does not, it exits with status 1 and the error
    names an entry that did not resolve.  On an API server that answers the
    queries from the content of the namespace, resolving is existing: status
    0 when every name exists, status 1 naming a missing secret otherwise. *)
Theorem degraded_mode os env order st c e0 :
  newFromEnvironment os = inr c →
  loadToken os c = inl e0 →
  order ≡ₚ map_to_list (Secrets c) →
  ∃ status st',
    main os env order st = (status, st')
    ∧ local st' = local st
    ∧ Forall (fun ev => ∃ name err, ev = Called (SecretsGet name) err ∧ name ∈ dom (Secrets c))
        (callsSince st st')
    ∧ ((∀ i k v, order !! i = Some (k, v) → resolves env st i k) → status = mkExit 0 None)
    ∧ ((∃ i k v, order !! i = Some (k, v) ∧ ¬ resolves env st i k) →
         code status = 1%Z
         ∧ ∃ i k v, order !! i = Some (k, v) ∧ ¬ resolves env st i k
                    ∧ (∀ j k' v', j < i → order !! j = Some (k', v') → resolves env st j k')
                    ∧ fatal status = Some (missingSecret k))
    ∧ ((∀ i, i < size (Secrets c) → k8sFault env (now st + i) = None) →
         ((∀ k, k ∈ dom (Secrets c) → is_Some (local st !! k)) → status = mkExit 0 None)
         ∧ ((∃ k, k ∈ dom (Secrets c) ∧ local st !! k = None) →
              code status = 1%Z
              ∧ ∃ k, k ∈ dom (Secrets c) ∧ local st !! k = None
                     ∧ fatal status = Some (missingSecret k))).
Proof.
  intros Hc Ht Hperm. unfold main, runMain. rewrite Hc, Ht.
  assert (Hlen : length order = size (Secrets c)).
  { by rewrite Hperm, length_map_to_list. }
  apply range_entries in Hperm as [_ Hin].
  assert (Hdom : ∀ k, k ∈ order.*1 ↔ k ∈ dom (Secrets c)).
  { intros k. rewrite elem_of_dom, list_elem_of_fmap. split.
    - intros ([k' v] & -> & Hkv). exists v. by apply Hin.
    - intros [v Hv]. exists (k, v). split; [done|]. by apply Hin. }
  destruct (checkSecrets_run env order st)
    as (out & s' & gets & Hrun & Hloc & Htr & Hgets & Hnone & Hsome & _).
  rewrite Hrun.
  assert (Hall : (∀ i k v, order !! i = Some (k, v) → resolves env st i k) → out = None).
  { intros Hall. destruct out as [err|]; [|done].
    destruct (Hsome err eq_refl) as (i & k & v & Hi & Hno & _). destruct Hno. by eapply Hall. }
  assert (Hany : (∃ i k v, order !! i = Some (k, v) ∧ ¬ resolves env st i k) →
            ∃ i k v, order !! i = Some (k, v) ∧ ¬ resolves env st i k
                     ∧ (∀ j k' v', j < i → order !! j = Some (k', v') → resolves env st j k')
                     ∧ out = Some (missingSecret k)).
  { intros (i & k & v & Hi & Hno). destruct out as [err|].
    - destruct (Hsome err eq_refl) as (i' & k' & v' & Hi' & Hno' & -> & Hbefore).
      by exists i', k', v'.
    - destruct Hno. by eapply Hnone. }
  assert (Hfaith : (∀ i, i < size (Secrets c) → k8sFault env (now st + i) = None) →
            ∀ i k v, order !! i = Some (k, v) → resolves env st i k ↔ is_Some (local st !! k)).
  { intros Hf i k v Hi. unfold resolves, answer, mustExist.
    rewrite Hf by (rewrite <- Hlen; by eapply lookup_lt_Some).
    destruct (local st !! k); split; try done. }
  exists (match out with None => mkExit 0 None | Some err => mkExit 1 (Some err) end), s'.
  split; [by destruct out|]. split; [done|]. split.
  { rewrite (callsSince_app st s' gets) by done.
    eapply Forall_impl; [exact Hgets|]. intros ev (name & err & -> & Hname).
    exists name, err. split; [done|]. by apply Hdom. }
  split_and!.
  - intros Hres. by rewrite Hall.
  - intros Hex. destruct (Hany Hex) as (i & k & v & Hi & Hno & Hbefore & ->). simpl.
    split; [done|]. by exists i, k, v.
  - intros Hf. split.
    + intros Hex. rewrite Hall; [done|]. intros i k v Hi. apply (Hfaith Hf i k v Hi).
      apply Hex, Hdom. apply list_elem_of_fmap. exists (k, v). split; [done|].
      by eapply list_elem_of_lookup_2.
    + intros (k & [v Hkv]%elem_of_dom & Hmiss).
      apply Hin, list_elem_of_lookup in Hkv as [i Hi].
      destruct Hany as (i' & k' & v' & Hi' & Hno' & _ & ->).
      { exists i, k, v. split; [done|]. rewrite (Hfaith Hf i k v Hi), Hmiss. by intros [? [=]]. }
      simpl. split; [done|]. exists k'. split_and!; try done.
      * apply Hdom, list_elem_of_fmap. exists (k', v'). split; [done|].
        by eapply list_elem_of_lookup_2.
      * rewrite (Hfaith Hf i' k' v' Hi') in Hno'.
        destruct (local st !! k'); [|done]. destruct Hno'. by eexists.
Qed.

Lemma degraded_mode_witness :
  newFromEnvironment (processEnv false) = inr desired
  ∧ loadToken (processEnv false) desired
    = inl (Wrap (PathError "/token") "could not get vault token")
  ∧ (main (processEnv false) quiet desiredOrder namespace2).1 = mkExit 0 None
  ∧ (main (processEnv false) quiet desiredOrder namespace0).1
    = mkExit 1 (Some (missingSecret "b")).
Proof.
  assert (newFromEnvironment (processEnv false) = inr desired) as Hc by (by vm_compute).
  assert (loadToken (processEnv false) desired
          = inl (Wrap (PathError "/token") "could not get vault token")) as Ht
    by (by vm_compute).
  split; [exact Hc|]. split; [exact Ht|]. split.
  - destruct (degraded_mode (processEnv false) quiet desiredOrder namespace2 desired _ Hc Ht)
      as (status & st' & Hmain & _ & _ & Hok & _); [by vm_compute|].
    rewrite Hmain. simpl. apply Hok.
    intros [|[|i]] k v Hi; simplify_eq/=; by vm_compute.
  - by vm_compute.
Defined.

(** C6.  The resolver.  [Split] cuts the input at the commas and nowhere else;
    an item [sourceID:localName] stores [sourceID] under [localName], whatever
    further parts follow, and an item without a colon stores itself under
    [path.Base] of itself, which is the last element of its path whatever
    slashes follow it, and ["/"] for a path of slashes; the parsed mapping
    gives every key the value of the last non-empty item that has it; it is
    empty exactly when the input is made of commas only.  [newFromEnvironment]
    returns the error of line 81 exactly when the token path is set and the
    mapping is empty; a configuration it returns holds the mapping, which is
    then not empty; and with the token path set and a mapping that is not
    empty it does return one when the namespace file is read and the clients
    are built. *)
Theorem resolver_contract (raw : string) :
  (Join (Split raw ","%char) ","%char = raw
   ∧ Forall (fun piece => Contains piece ","%char = false) (Split raw ","%char))
  ∧ (∀ src name, Contains src ":"%char = false → Contains name ":"%char = false →
       secretEntry (src +:+ ":" +:+ name) = (name, src)
       ∧ ∀ rest, secretEntry (src +:+ ":" +:+ name +:+ ":" +:+ rest) = (name, src))
  ∧ (∀ src, Contains src ":"%char = false → secretEntry src = (Base src, src))
  ∧ (∀ dir element n, element ≠ "" → Contains element "/"%char = false →
       Base (dir +:+ "/" +:+ element +:+ slashes n) = element
       ∧ Base (element +:+ slashes n) = element)
  ∧ (∀ n, Base (slashes (S n)) = "/")
  ∧ (∀ k v, parseSecrets raw !! k = Some v ↔
       ∃ i, (secretEntry <$> tokens raw) !! i = Some (k, v)
            ∧ ∀ j e, i < j → (secretEntry <$> tokens raw) !! j = Some e → e.1 ≠ k)
  ∧ (parseSecrets raw = ∅ ↔ ∀ i a, String.get i raw = Some a → a = ","%char)
  ∧ (∀ os, Getenv os "VAULT_SECRETS" = raw →
       (∀ c, newFromEnvironment os = inr c →
          Secrets c = parseSecrets raw ∧ parseSecrets raw ≠ ∅)
       ∧ (newFromEnvironment os = inl noSecrets ↔
            Getenv os "VAULT_TOKEN_PATH" ≠ "" ∧ parseSecrets raw = ∅)
       ∧ (Getenv os "VAULT_TOKEN_PATH" = "" →
            newFromEnvironment os = inl (Errorf "missing VAULT_TOKEN_PATH"))
       ∧ (Getenv os "VAULT_TOKEN_PATH" ≠ "" → parseSecrets raw ≠ ∅ →
            ∀ content, ReadFile os namespaceFile = inr content →
              InClusterConfig os = None → NewForConfig os = None →
              ReadEnvironment os = None → NewClient os = None →
              ∃ c, newFromEnvironment os = inr c ∧ Secrets c = parseSecrets raw)).
Proof.
  split_and!.
  - apply Join_Split.
  - apply Split_pieces.
  - intros src name Hs Hn. split; [by apply secretEntry_named|].
    intros rest. by apply secretEntry_parts.
  - apply secretEntry_plain.
  - apply Base_last_element.
  - apply Base_slashes.
  - intros k v. rewrite parseSecrets_tokens. apply storeEntry_last.
  - rewrite parseSecrets_empty. apply tokens_empty.
  - intros os <-. apply newFromEnvironment_secrets.
Qed.

Example resolver_example :
  parseSecrets "db/creds:app-db,db/creds:app-db-2"
  = {[ "app-db" := "db/creds"; "app-db-2" := "db/creds" ]}
  ∧ parseSecrets "kv/a:x,kv/b:x" = {[ "x" := "kv/b" ]}
  ∧ parseSecrets "secret/app/db" = {[ "db" := "secret/app/db" ]}
  ∧ parseSecrets ",," = ∅
  ∧ parseSecrets "secret/app/db//" = {[ "db" := "secret/app/db//" ]}
  ∧ (∃ c, newFromEnvironment (processEnv true) = inr c
          ∧ Secrets c = {[ "a" := "kv/a"; "b" := "kv/x" ]})
  ∧ newFromEnvironment
      (mkEnviron (fun name => if decide (name = "VAULT_TOKEN_PATH") then "/token" else ",,")
         (fun _ => inr "default") None None None None)
    = inl noSecrets.
Proof. split_and!; try by vm_compute. eexists. split; [reflexivity|]. by vm_compute. Qed.

(** C7.  Create or update.  For an entry whose payload was read, the body of
    the request is the object built for the entry; it is sent with [Create]
    when [Get] answered not-found and with [Update] for every other answer.
    When the write succeeds the namespace holds exactly that object under the
    local name, with its fields and its one annotation and nothing of the
    object it replaces; when it fails the namespace is unchanged and
    [synchronize] returns the error of the write. *)
Theorem create_or_update env c token st pre k v post s1 sdata data :
  applied env st pre s1 →
  vault env (now s1) v = ReadSecret sdata →
  convertData sdata = Some data →
  let ann := length (heap st) in
  let get := answer env (S (now s1)) (mustExist (local s1) k) in
  let write :=
    if IsNotFound get then SecretsCreate (mkSecret k data ann) (built data v)
    else SecretsUpdate (mkSecret k data ann) (built data v) in
  let err :=
    answer env (S (S (now s1)))
      (if IsNotFound get then mustBeFree (local s1) k else mustExist (local s1) k) in
  ∃ s2,
    synchronizeEntry env ann k v s1 = (Returns err, s2)
    ∧ callsSince s1 s2
      = [Called (VaultRead v) None; Called (SecretsGet k) get; Called write err]
    ∧ (err = None →
         local s2 = <[k := built data v]> (local s1)
         ∧ local s2 !! k = Some (mkObject data {[vaultAnnotation := v]}))
    ∧ (∀ e, err = Some e →
         local s2 = local s1
         ∧ synchronize env c (pre ++ (k, v) :: post) token st = (Returns (Some e), s2)).
Proof.
  intros Hpre Hv Hc ann get write err.
  destruct (applied_summary env st pre s1 Hpre) as (Hann & _).
  pose proof (synchronizeEntry_step env ann k v s1 Hann) as Hstep.
  destruct (synchronizeEntry env ann k v s1) as [o s2] eqn:Hrun. simpl in Hstep.
  exists s2.
  destruct Hstep as [e Hv'|Hv'|sdata' data' get' err' rq Hv' Hc' Hg He Hr]; simpl.
  { congruence. }
  { destruct Hv' as [Hv'|(sd & Hv' & Hc')]; congruence. }
  rewrite Hv in Hv'. injection Hv' as <-. rewrite Hc in Hc'. injection Hc' as <-.
  fold get in Hg. subst get'. fold err in He. subst err'. fold ann write in Hr. subst rq.
  split_and!.
  - done.
  - by apply callsSince_app.
  - intros ->. split; [done|]. apply lookup_insert_eq.
  - intros e He. rewrite He. split; [done|].
    rewrite (synchronize_from env c token st pre _ s1 Hpre). simpl.
    unfold bind. fold ann. rewrite Hrun. by rewrite He.
Qed.

Lemma create_or_update_witness :
  applied quiet namespace0 [("a", "kv/a")] (afterFirst quiet namespace0)
  ∧ (∃ s2,
       synchronizeEntry quiet 0 "b" "kv/x" (afterFirst quiet namespace0) = (Returns None, s2)
       ∧ callsSince (afterFirst quiet namespace0) s2
         = [Called (VaultRead "kv/x") None;
            Called (SecretsGet "b") (Some (StatusError StatusReasonNotFound "b"));
            Called (SecretsCreate (mkSecret "b" (password "kv/x") 0)
                      (built (password "kv/x") "kv/x")) None]
       ∧ local s2 !! "b" = Some (mkObject (password "kv/x") {[vaultAnnotation := "kv/x"]})).
Proof.
  assert (applied quiet namespace0 [("a", "kv/a")] (afterFirst quiet namespace0)) as Hpre
    by (by vm_compute).
  split; [exact Hpre|].
  destruct (create_or_update quiet desired "s.token" namespace0 [("a", "kv/a")]
                "b" "kv/x" [] (afterFirst quiet namespace0)
                {[ "data" := UMap {[ "password" := VString "pw-kv/x" ]} ]}
                (password "kv/x") Hpre)
      as (s2 & Hrun & Hcalls & Hok & _); [by vm_compute..|].
  exists s2. split; [exact Hrun|]. split; [exact Hcalls|]. apply Hok. by vm_compute.
Defined.




(** C9, as the program has it.  Every secret a run writes points to the one
    annotation map made before the loop; the body sent with it, encoded when
    the call is made, has the fields of the secret and the marker annotation
    with the source of an entry of that name as its only annotation. *)
Theorem written_annotations env c order token st out st' :
  synchronize env c order token st = (out, st') →
  ∀ ev secret, ev ∈ callsSince st st' → written ev = Some secret →
    Annotations secret = length (heap st)
    ∧ ∃ v b err,
        (Name secret, v) ∈ order
        ∧ (ev = Called (SecretsCreate secret b) err ∨ ev = Called (SecretsUpdate secret b) err)
        ∧ objData b = Data secret
        ∧ objAnnotations b = {[vaultAnnotation := v]}.
Proof.
  intros Hrun ev secret Hin Hw.
  destruct (synchronize_calls env c order token st out st' Hrun)
    as (new & rest & Hcalls & Hnew & Hrest).
  rewrite Hcalls in Hin. apply elem_of_app in Hin as [Hin|Hin].
  - rewrite Forall_forall in Hnew. specialize (Hnew ev Hin).
    destruct ev as [[p|n|sec b|sec b| |n] err]; simpl in Hw; try done;
      injection Hw as ->; destruct Hnew as (Hann & v & Hv & ->);
      (split; [done|]); exists v; eexists _, err; split_and!; eauto.
  - rewrite Forall_forall in Hrest. specialize (Hrest ev Hin).
    destruct ev as [[p|n|sec b|sec b| |n] err]; simpl in *; try done; by destruct Hrest.
Qed.

Lemma written_annotations_witness :
  synchronize quiet desired desiredOrder "s.token" namespace0
  = (Returns None, (synchronize quiet desired desiredOrder "s.token" namespace0).2)
  ∧ ∃ v b err,
      ("b", v) ∈ desiredOrder
      ∧ (Called (SecretsCreate (mkSecret "b" (password "kv/x") 0)
                   (built (password "kv/x") "kv/x")) None
         = Called (SecretsCreate (mkSecret "b" (password "kv/x") 0) b) err
         ∨ Called (SecretsCreate (mkSecret "b" (password "kv/x") 0)
                     (built (password "kv/x") "kv/x")) None
           = Called (SecretsUpdate (mkSecret "b" (password "kv/x") 0) b) err)
      ∧ objData b = password "kv/x"
      ∧ objAnnotations b = {[vaultAnnotation := v]}.
Proof.
  assert (synchronize quiet desired desiredOrder "s.token" namespace0
          = (Returns None, (synchronize quiet desired desiredOrder "s.token" namespace0).2))
    as Hrun by (by vm_compute).
  split; [exact Hrun|].
  apply (written_annotations quiet desired desiredOrder "s.token" namespace0 _ _ Hrun
           (Called (SecretsCreate (mkSecret "b" (password "kv/x") 0)
                      (built (password "kv/x") "kv/x")) None)
           (mkSecret "b" (password "kv/x") 0)).
  - apply (list_elem_of_lookup_2 _ 5). by vm_compute.
  - reflexivity.
Defined.

(** C9, as it is written, fails: the two secrets a run of two entries writes
    share their annotation map. *)
Lemma shared_annotation_map :
  ¬ freshTagSets
      (callsSince namespace0 (synchronize quiet desired desiredOrder "s.token" namespace0).2).
Proof.
  unfold freshTagSets.
  assert (Annotations <$> omap written
            (callsSince namespace0
               (synchronize quiet desired desiredOrder "s.token" namespace0).2)
          = [0; 0]) as -> by (by vm_compute).
  intros Hnd. apply NoDup_cons in Hnd as [Hnotin _]. apply Hnotin. by left.
Qed.

(** Once that run is over, the first secret, still in memory, shows the source
    of the second entry. *)
Example first_secret_shows_second_source :
  annotationsOf (synchronize quiet desired desiredOrder "s.token" namespace0).2
    (mkSecret "a" (password "kv/a") 0)
  = {[vaultAnnotation := "kv/x"]}.
Proof. by vm_compute. Qed.

(** C10.  The degraded check takes any error for absence.  Whatever error the
    existence query of an entry returns, not-found or a failure of the API
    server of its own, all the entries before it having resolved, the process
    exits with status 1 and the error says that the secret of that entry does
    not exist, whether it does or not. *)
Theorem degraded_check_reports_any_error os env order st c e0 i k v e :
  newFromEnvironment os = inr c →
  loadToken os c = inl e0 →
  order !! i = Some (k, v) →
  (∀ j k' v', j < i → order !! j = Some (k', v') → resolves env st j k') →
  answer env (now st + i) (mustExist (local st) k) = Some e →
  (main os env order st).1
  = mkExit 1 (Some (Errorf ("secret " +:+ k +:+ " does not exist"))).
Proof.
  intros Hc Ht Hi Hbefore Herr.
  unfold main, runMain. rewrite Hc, Ht.
  destruct (checkSecrets_run env order st)
    as (out & s' & gets & Hrun & _ & _ & _ & _ & _ & Hfirst).
  rewrite Hrun. rewrite (Hfirst i k v Hi); [done| |done].
  unfold resolves. by rewrite Herr.
Qed.

(** Both desired secrets exist, the first query times out, and the process
    reports that secret [a] does not exist. *)
Lemma degraded_check_witness :
  newFromEnvironment (processEnv false) = inr desired
  ∧ is_Some (local namespace2 !! "a") ∧ is_Some (local namespace2 !! "b")
  ∧ answer (failingAt 0) (now namespace2 + 0) (mustExist (local namespace2) "a") = Some timeout
  ∧ (main (processEnv false) (failingAt 0) desiredOrder namespace2).1
    = mkExit 1 (Some (Errorf "secret a does not exist")).
Proof.
  split; [by vm_compute|].
  split; [eexists; by vm_compute|]. split; [eexists; by vm_compute|].
  split; [by vm_compute|].
  apply (degraded_check_reports_any_error (processEnv false) (failingAt 0) desiredOrder
           namespace2 desired (Wrap (PathError "/token") "could not get vault token")
           0 "a" "kv/a" timeout).
  - by vm_compute.
  - by vm_compute.
  - reflexivity.
  - intros j k' v' Hj. lia.
  - by vm_compute.
Defined.

(** * Further properties of the code *)

(** ** The parser, again *)

Section ParserMore.
Local Arguments String.append : simpl nomatch.
Implicit Types (s t raw : string) (sep c : ascii).

Lemma addSecret_union (m : gmap string string) (items : list string) :
  foldl addSecret m items = foldl addSecret ∅ items ∪ m.
Proof.
  revert m. induction items as [|item items IH]; intros m; simpl.
  - by rewrite (left_id_L ∅ (∪)).
  - rewrite IH, (IH (addSecret ∅ item)). unfold addSecret.
    case_decide.
    + by rewrite (right_id_L ∅ (∪)).
    + rewrite <- (assoc_L (∪)). f_equal.
      by rewrite insert_union_singleton_l, insert_empty.
Qed.

Lemma Contains_cons a s c : Contains s c = true → Contains (String a s) c = true.
Proof. intros H. simpl. by case_decide. Qed.

(** The characters of a piece are characters of the string. *)
Lemma Split_sub s sep c piece :
  piece ∈ Split s sep → Contains piece c = true → Contains s c = true.
Proof.
  revert piece. induction s as [|a s IH]; intros piece; cbn [Split].
  - by intros ->%list_elem_of_singleton.
  - destruct (decide (a = sep)) as [Ha|Ha].
    + intros [->|Hin]%elem_of_cons; [done|]. intros Hc. by apply Contains_cons, (IH piece).
    + pose proof (Split_nonempty s sep). destruct (Split s sep) as [|p ps]; [done|].
      intros [->|Hin]%elem_of_cons.
      * simpl. case_decide; [done|]. apply IH. by left.
      * intros Hc. apply Contains_cons, (IH piece); [by right|done].
Qed.

Lemma stripTrailingSlashes_sub p c :
  Contains (stripTrailingSlashes p) c = true → Contains p c = true.
Proof.
  induction p as [|a p IH]; simpl; [done|].
  destruct (stripTrailingSlashes p) as [|b r] eqn:E.
  - destruct (decide (a = "/"%char)); simpl; [done|]. by destruct (decide (a = c)).
  - simpl in *. destruct (decide (a = c)); [done|]. apply IH.
Qed.

Lemma Base_sub p c :
  Contains (Base p) c = true → Contains p c = true ∨ c = "."%char ∨ c = "/"%char.
Proof.
  unfold Base. destruct p as [|a p].
  { simpl. destruct (decide (_ = c)) as [<-|Hne]; [|done]. intros _. right. by left. }
  set (q := String a p).
  destruct (last (Split (stripTrailingSlashes q) "/"%char)) as [[|b e]|] eqn:Hlast.
  - simpl. destruct (decide (_ = c)) as [<-|Hne]; [|done]. intros _. right. by right.
  - intros Hc. left. apply (stripTrailingSlashes_sub q).
    apply (Split_sub _ "/"%char c (String b e)); [|done].
    apply last_Some in Hlast as [l ->]. apply elem_of_app. right. by left.
  - simpl. destruct (decide (_ = c)) as [<-|Hne]; [|done]. intros _. right. by right.
Qed.

Lemma Base_shape p :
  Base p ≠ "" ∧ (Base p = "/" ∨ Contains (Base p) "/"%char = false).
Proof.
  unfold Base. destruct p as [|a p]; [by split; [|right]|].
  set (q := String a p).
  pose proof (Split_pieces (stripTrailingSlashes q) "/"%char) as Hp.
  destruct (last (Split (stripTrailingSlashes q) "/"%char)) as [[|b e]|] eqn:Hlast.
  - split; [done|by left].
  - split; [done|]. right. rewrite Forall_forall in Hp. apply Hp.
    apply last_Some in Hlast as [l ->]. apply elem_of_app. right. by left.
  - split; [done|by left].
Qed.

End ParserMore.

(** No comma and no colon gets into the parsed mapping. *)
Lemma parseSecrets_clean (raw k v : string) :
  parseSecrets raw !! k = Some v →
  Contains k ","%char = false ∧ Contains k ":"%char = false
  ∧ Contains v ","%char = false ∧ Contains v ":"%char = false.
Proof.
  rewrite parseSecrets_tokens. intros (i & Hi & _)%storeEntry_last.
  apply list_lookup_fmap_Some in Hi as (t & Hentry & Ht). symmetry in Hentry.
  apply list_elem_of_lookup_2, list_elem_of_filter in Ht as [Hne Ht].
  pose proof (Split_pieces raw ","%char) as Hcomma. rewrite Forall_forall in Hcomma.
  specialize (Hcomma t Ht).
  pose proof (Split_pieces t ":"%char) as Hcolon. rewrite Forall_forall in Hcolon.
  assert (Hpiece : ∀ piece, piece ∈ Split t ":"%char →
            Contains piece ","%char = false ∧ Contains piece ":"%char = false).
  { intros piece Hin. split; [|by apply Hcolon].
    destruct (Contains piece ","%char) eqn:E; [|done].
    by rewrite (Split_sub t ":"%char ","%char piece Hin E) in Hcomma. }
  assert (Hbase : ∀ p, Contains p ","%char = false ∧ Contains p ":"%char = false →
            Contains (Base p) ","%char = false ∧ Contains (Base p) ":"%char = false).
  { intros p [Hp1 Hp2]. split.
    - destruct (Contains (Base p) ","%char) eqn:E; [|done].
      apply Base_sub in E as [E|[E|E]]; [congruence|done|done].
    - destruct (Contains (Base p) ":"%char) eqn:E; [|done].
      apply Base_sub in E as [E|[E|E]]; [congruence|done|done]. }
  pose proof (Split_nonempty t ":"%char) as Hnil.
  unfold secretEntry in Hentry.
  destruct (Split t ":"%char) as [|s0 [|s1 ps]]; [done| |]; simpl in Hentry;
    injection Hentry as <- <-.
  - destruct (Hpiece s0) as [? ?]; [by left|].
    destruct (Hbase s0) as [? ?]; done.
  - destruct (Hpiece s0) as [? ?]; [by left|].
    destruct (Hpiece s1) as [? ?]; [by right; left|]. done.
Qed.

(** ** Runs on which every call is served *)

Section Healthy.
Context (env : cluster).
Implicit Types (s st : state) (k v name : string) (ann : loc).

Hypothesis served_all : ∀ n, k8sFault env n = None.

Lemma healthy_loop ann order s :
  annotationsAt ann s →
  (∀ n k v, (k, v) ∈ order → ∃ sdata data,
     vault env n v = ReadSecret sdata ∧ convertData sdata = Some data) →
  ∃ s', synchronizeEntries env ann order s = (Returns None, s').
Proof.
  revert s. induction order as [|[k v] order IH]; intros s Hann Hvault; simpl.
  - by exists s.
  - pose proof (synchronizeEntry_step env ann k v s Hann) as Hstep.
    unfold bind. destruct (synchronizeEntry env ann k v s) as [o s1]. simpl in Hstep.
    pose proof (entryStep_annotationsAt _ _ _ _ _ _ _ Hann Hstep) as Hann1.
    destruct (Hvault (now s) k v) as (sdata & data & Hv & Hc); [by left|].
    destruct Hstep as [e Hv'|Hv'|sdata' data' get err rq Hv' Hc' Hg He Hr].
    { congruence. }
    { destruct Hv' as [Hv'|(sd & Hv' & Hc')]; congruence. }
    assert (err = None) as ->.
    { subst err get. unfold answer. rewrite !served_all. unfold mustExist, mustBeFree.
      by destruct (local s !! k). }
    apply IH; [done|]. intros n k' v' Hin. apply (Hvault n k' v'). by right.
Qed.

Lemma healthy_deletes secrets items s :
  NoDup items.*1 →
  (∀ item, item ∈ items → is_Some (local s !! item.1)) →
  ∃ s' new,
    deleteObsolete env secrets items s = (Returns tt, s')
    ∧ trace s' = trace s ++ new
    ∧ (∀ name, (∃ o, (name, o) ∈ items ∧ obsolete secrets (name, o)) →
         local s' !! name = None)
    ∧ (∀ name, (∀ o, (name, o) ∈ items → ¬ obsolete secrets (name, o)) →
         local s' !! name = local s !! name).
Proof.
  revert s. induction items as [|[name0 o] items IH]; intros s Hnd Hex.
  - exists s, []. simpl. rewrite app_nil_r. split_and!; try done.
    intros name (o & Hin & _). by apply elem_of_nil in Hin.
  - simpl in Hnd. apply NoDup_cons in Hnd as [Hfresh Hnd].
    destruct (deleteObsolete_summary env secrets ((name0, o) :: items) s)
      as (s' & new & Hrun & _ & Htr & _ & Hsub & _ & _).
    exists s', new. split; [done|]. split; [done|].
    simpl in Hrun.
    destruct (decide (obsolete secrets (name0, o))) as [Hobs|Hobs].
    + pose proof Hobs as [[src Hm] Hs]. simpl in Hm, Hs. rewrite Hm, Hs in Hrun.
      unfold bind, secretsDelete in Hrun. cbn [fst] in Hrun.
      assert (answer env (now s) (mustExist (local s) name0) = None) as Herr.
      { unfold answer, mustExist. rewrite served_all.
        destruct (Hex (name0, o)) as [o' Ho']; [by left|]. simpl in Ho'. by rewrite Ho'. }
      rewrite Herr in Hrun. unfold served in Hrun.
      set (s1 := record (SecretsDelete name0) None (setLocal (delete name0 (local s)) s))
        in Hrun.
      destruct (IH s1 Hnd) as (s2 & new2 & Hrun2 & _ & Hdel2 & Hkeep2).
      { intros item Hin. unfold s1. simpl. rewrite lookup_delete_ne; [apply Hex; by right|].
        intros Heq. apply Hfresh. rewrite Heq. by apply list_elem_of_fmap_2. }
      rewrite Hrun in Hrun2. injection Hrun2 as <-.
      split.
      * intros name (o' & Hin & Hobs'). apply elem_of_cons in Hin as [[= -> ->]|Hin].
        -- rewrite Hkeep2.
           ++ unfold s1. simpl. apply lookup_delete_eq.
           ++ intros o'' Hin. destruct Hfresh.
              by apply (list_elem_of_fmap_2 fst items (name0, o'')).
        -- apply Hdel2. by exists o'.
      * intros name Hno. rewrite Hkeep2.
        -- unfold s1. simpl. apply lookup_delete_ne. intros <-.
           apply (Hno o); [by left|done].
        -- intros o' Hin. apply Hno. by right.
    + assert (deleteObsolete env secrets items s = (Returns tt, s')) as Hrun'.
      { destruct (objAnnotations o !! vaultAnnotation) as [src|] eqn:Hm; [|done].
        destruct (secrets !! name0) as [v|] eqn:Hs; [done|].
        destruct Hobs. split; [unfold managed; simpl; by rewrite Hm|done]. }
      destruct (IH s Hnd) as (s2 & new2 & Hrun2 & _ & Hdel2 & Hkeep2).
      { intros item Hin. apply Hex. by right. }
      rewrite Hrun' in Hrun2. injection Hrun2 as <-.
      split.
      * intros name (o' & Hin & Hobs'). apply elem_of_cons in Hin as [[= -> ->]|Hin]; [done|].
        apply Hdel2. by exists o'.
      * intros name Hno. apply Hkeep2. intros o' Hin. apply Hno. by right.
Qed.

(** A run on which every call is served and every payload has the expected
    shape returns nil and leaves the reconciled namespace. *)
Lemma healthy_synchronize c order token st payload :
  order ≡ₚ map_to_list (Secrets c) →
  (∀ n k v, Secrets c !! k = Some v → ∃ sdata,
     vault env n v = ReadSecret sdata ∧ convertData sdata = Some (payload v)) →
  ∃ st',
    synchronize env c order token st = (Returns None, st')
    ∧ local st' = reconciled (Secrets c) payload (local st).
Proof.
  intros Hperm Hvault. apply range_entries in Hperm as [Hnd Hin].
  destruct (healthy_loop (length (heap st)) order (makeMap st).2) as [s1 Hloop].
  { apply makeMap_annotationsAt. }
  { intros n k v Hkv%Hin. destruct (Hvault n k v Hkv) as (sdata & Hv & Hc). by exists sdata, (payload v). }
  destruct (synchronizeEntries_summary env _ _ _ _ _ (makeMap_annotationsAt st) Hloop)
    as (_ & _ & _ & Hframe & Hok).
  specialize (Hok eq_refl Hnd). simpl in Hframe.
  rewrite synchronize_run, Hloop. unfold cleanup, bind, secretsList. rewrite served_all.
  destruct (healthy_deletes (Secrets c) (map_to_list (local s1)) (record SecretsList None s1))
    as (s2 & new & Hrun & _ & Hdel & Hkeep).
  { apply NoDup_fst_map_to_list. }
  { intros [name o] Hitem%elem_of_map_to_list. by exists o. }
  rewrite Hrun. exists s2. split; [done|].
  apply map_eq. intros name. unfold reconciled.
  rewrite lookup_union, lookup_fmap, map_lookup_filter.
  destruct (Secrets c !! name) as [v|] eqn:Hs; simpl.
  - destruct (Hok name v) as (n & sdata & data & Hv & Hc & Ho); [by apply Hin|].
    destruct (Hvault n name v Hs) as (sdata' & Hv' & Hc').
    assert (data = payload v) as -> by congruence.
    rewrite Hkeep.
    + simpl. rewrite Ho. by destruct (_ ≫= _).
    + intros o' _ [_ Hobs]. simpl in Hobs. congruence.
  - assert (local s1 !! name = local st !! name) as Hsame.
    { apply Hframe. intros ([k v] & -> & Hkv)%list_elem_of_fmap.
      apply Hin in Hkv. simpl in Hs. congruence. }
    destruct (local st !! name) as [o|] eqn:Ho; simpl.
    + destruct (decide (managed o)) as [Hman|Hun].
      * rewrite Hdel.
        -- rewrite option_guard_False by (simpl; tauto). done.
        -- exists o. split; [by apply elem_of_map_to_list|done].
      * rewrite Hkeep.
        -- simpl. rewrite Hsame. by rewrite option_guard_True.
        -- intros o' Hin'%elem_of_map_to_list [Hman _]. simpl in Hman. congruence.
    + rewrite Hkeep; [simpl; by rewrite Hsame|].
      intros o' Hin'%elem_of_map_to_list. congruence.
Qed.

End Healthy.

(** ** What a run leaves alone *)

Section Frames.
Context (env : cluster).
Implicit Types (s st : state) (k v name : string) (ann : loc).

(** The first loop removes nothing, and writes to no map but its own. *)
Lemma synchronizeEntries_keeps ann order s out s' :
  annotationsAt ann s →
  synchronizeEntries env ann order s = (out, s') →
  (∀ name, is_Some (local s !! name) → is_Some (local s' !! name))
  ∧ (∀ l, l ≠ ann → heap s' !! l = heap s !! l).
Proof.
  revert s. induction order as [|[k v] order IH]; intros s Hann Hrun; simpl in Hrun.
  - by injection Hrun as <- <-.
  - unfold bind in Hrun.
    pose proof (synchronizeEntry_step env ann k v s Hann) as Hstep.
    destruct (synchronizeEntry env ann k v s) as [o s1]. simpl in Hstep.
    pose proof (entryStep_annotationsAt _ _ _ _ _ _ _ Hann Hstep) as Hann1.
    assert (Hone : (∀ name, is_Some (local s !! name) → is_Some (local s1 !! name))
                   ∧ (∀ l, l ≠ ann → heap s1 !! l = heap s !! l)).
    { destruct Hstep as [e Hv|Hv|sdata data get err rq Hv Hc Hg He Hr]; simpl; [done..|].
      split.
      - intros name Hsome. destruct err; [done|].
        apply lookup_insert_is_Some. destruct (decide (k = name)); [by left|by right].
      - intros l Hl. by apply list_lookup_alter_ne. }
    destruct o as [[e|]| |n]; try (unfold ret in Hrun; by injection Hrun as <- <-).
    destruct (IH s1 Hann1 Hrun) as [Hkeep Hheap]. destruct Hone as [Hkeep1 Hheap1].
    split.
    + intros name Hsome. by apply Hkeep, Hkeep1.
    + intros l Hl. rewrite Hheap by done. by apply Hheap1.
Qed.

End Frames.

(** ** The degraded check, call by call *)

Section CheckMore.
Context (env : cluster).
Implicit Types (s st : state) (k v name : string).

Lemma checkSecrets_prefix pre rest s :
  (∀ i k v, pre !! i = Some (k, v) → resolves env s i k) →
  checkSecrets env (pre ++ rest) s
  = checkSecrets env rest (mkState (local s) (heap s) (trace s ++ (asked <$> pre))).
Proof.
  revert s. induction pre as [|[k v] pre IH]; intros s Hres; simpl.
  - rewrite app_nil_r. by destruct s.
  - unfold bind, secretsGet.
    pose proof (Hres 0 k v eq_refl) as H0. unfold resolves in H0.
    rewrite Nat.add_0_r in H0. rewrite H0. rewrite IH.
    + unfold record. simpl. by rewrite <- app_assoc.
    + intros i k' v' Hi. apply (proj2 (resolves_next env s i k' (SecretsGet k) None)).
      by apply (Hres (S i) k' v').
Qed.

End CheckMore.

(** ** How the first loop can end *)

Section Outcomes.

Context (env : cluster).

(** The first loop never exits the process, and it panics only right after a
    read that returned no error. *)
Lemma synchronizeEntries_outcome ann order s out s' :
  annotationsAt ann s →
  synchronizeEntries env ann order s = (out, s') →
  match out with
  | Returns _ => True
  | Panics => ∃ v, v ∈ order.*2 ∧ last (trace s') = Some (Called (VaultRead v) None)
  | Exits _ => False
  end.
Proof.
  revert s. induction order as [|[k v] order IH]; intros s Hann Hrun; simpl in Hrun.
  - by injection Hrun as <- <-.
  - unfold bind in Hrun.
    pose proof (synchronizeEntry_step env ann k v s Hann) as Hstep.
    destruct (synchronizeEntry env ann k v s) as [o s1]. simpl in Hstep.
    pose proof (entryStep_annotationsAt _ _ _ _ _ _ _ Hann Hstep) as Hann1.
    inversion Hstep as [e Hv Ho Hs|Hv Ho Hs|sdata data get err rq Hv Hc Hget Herr Hrq Ho Hs];
      subst o s1.
    + by injection Hrun as <- <-.
    + injection Hrun as <- <-. exists v. split; [by left|].
      unfold record. simpl. by rewrite last_snoc.
    + destruct err as [e|].
      * by injection Hrun as <- <-.
      * specialize (IH _ Hann1 Hrun). destruct out as [r| |n]; try done.
        destruct IH as (v' & Hin & Hlast). exists v'. split; [by right|done].
Qed.

End Outcomes.

(** Vault answers [okVault] with a payload of the expected shape. *)
Lemma okVault_payload n src :
  ∃ sdata, okVault n src = ReadSecret sdata ∧ convertData sdata = Some (password src).
Proof. eexists. split; [reflexivity|]. by vm_compute. Qed.

(** ** The payload *)

Lemma omap_toBytes_strings (strs : gmap string string) :
  omap toBytes (VString <$> strs) = list_byte_of_string <$> strs.
Proof.
  apply map_eq. intros k. rewrite lookup_omap, !lookup_fmap.
  by destruct (strs !! k).
Qed.

Lemma strings_fields (fields : gmap string value) :
  map_Forall (fun _ v => is_Some (toBytes v)) fields →
  ∃ strs : gmap string string, fields = VString <$> strs.
Proof.
  intros Hall.
  exists (omap (fun v => match v with VString s => Some s | VOther => None end) fields).
  apply map_eq. intros k. rewrite lookup_fmap, lookup_omap.
  destruct (fields !! k) as [[s|]|] eqn:Hk; simpl; [done| |done].
  destruct (Hall k VOther Hk) as [b Hb]. done.
Qed.

(** ** The properties *)

(** X1.  Parsing composes: the mapping of two inputs joined by a comma is the
    mapping of the second input, completed by the entries of the first whose
    keys the second does not have. *)
Theorem parseSecrets_append (a b : string) :
  parseSecrets (a +:+ "," +:+ b) = parseSecrets b ∪ parseSecrets a.
Proof.
  unfold parseSecrets. change ("," +:+ b) with (String ","%char b).
  by rewrite Split_app, foldl_app, addSecret_union.
Qed.

(** X2.  Of an item with more than two parts between colons only the first two
    count: the first is the source, the second the local name, empty or not,
    and the rest is dropped. *)
Theorem secretEntry_extra_parts (src name rest : string) :
  Contains src ":"%char = false → Contains name ":"%char = false →
  secretEntry (src +:+ ":" +:+ name +:+ ":" +:+ rest) = (name, src).
Proof.
  intros Hs Hn. unfold secretEntry.
  change (":" +:+ name +:+ ":" +:+ rest) with (String ":"%char (name +:+ String ":"%char rest)).
  by rewrite Split_cut, Split_cut.
Qed.

Lemma secretEntry_extra_parts_witness :
  Contains "kv/a" ":"%char = false ∧ Contains "x" ":"%char = false
  ∧ secretEntry ("kv/a" +:+ ":" +:+ "x" +:+ ":" +:+ "y:z") = ("x", "kv/a").
Proof.
  split; [reflexivity|]. split; [reflexivity|].
  apply (secretEntry_extra_parts "kv/a" "x" "y:z"); reflexivity.
Defined.

(** X3.  An item without a colon is stored whole as the source, under a name
    that is never empty and that holds no slash unless it is ["/"] itself. *)
Theorem derived_name_shape (item : string) :
  Contains item ":"%char = false →
  (secretEntry item).2 = item
  ∧ (secretEntry item).1 ≠ ""
  ∧ ((secretEntry item).1 = "/" ∨ Contains (secretEntry item).1 "/"%char = false).
Proof.
  intros Hc. rewrite secretEntry_plain by done. simpl. split; [done|]. apply Base_shape.
Qed.

Lemma derived_name_shape_witness :
  Contains "secret/app/db" ":"%char = false
  ∧ (secretEntry "secret/app/db").2 = "secret/app/db"
  ∧ (secretEntry "secret/app/db").1 ≠ ""
  ∧ ((secretEntry "secret/app/db").1 = "/"
     ∨ Contains (secretEntry "secret/app/db").1 "/"%char = false).
Proof.
  split; [reflexivity|]. apply (derived_name_shape "secret/app/db"). reflexivity.
Defined.

(** X4.  A configuration that [newFromEnvironment] returns has the token path
    of the environment, which is not empty, the parsed secrets, of which there
    is at least one, and no comma or colon in any local name or source; its
    namespace is the content of the namespace file between its leading and
    its trailing white space, with no white-space rune left at either end. *)
Theorem config_invariant os c :
  newFromEnvironment os = inr c →
  VaultTokenPath c = Getenv os "VAULT_TOKEN_PATH" ∧ VaultTokenPath c ≠ ""
  ∧ Secrets c = parseSecrets (Getenv os "VAULT_SECRETS") ∧ 0 < size (Secrets c)
  ∧ (∃ content, ReadFile os namespaceFile = inr content
                ∧ Namespace c = TrimSpace content ∧ trimmed content (Namespace c))
  ∧ ∀ k v, Secrets c !! k = Some v →
      Contains k ","%char = false ∧ Contains k ":"%char = false
      ∧ Contains v ","%char = false ∧ Contains v ":"%char = false.
Proof.
  unfold newFromEnvironment. cbv zeta.
  destruct (decide (Getenv os "VAULT_TOKEN_PATH" = "")) as [|Ht]; [done|].
  destruct (decide (size (parseSecrets (Getenv os "VAULT_SECRETS")) = 0)) as [|Hz]; [done|].
  destruct (ReadFile os namespaceFile) as [e1|content]; [done|].
  destruct (InClusterConfig os) as [e2|]; [done|].
  destruct (NewForConfig os) as [e3|]; [done|].
  destruct (ReadEnvironment os) as [e4|]; [done|].
  destruct (NewClient os) as [e5|]; [done|].
  intros [= <-]. simpl. split_and!; try done.
  - lia.
  - exists content. split_and!; try done. apply TrimSpace_trimmed.
  - intros k v. apply parseSecrets_clean.
Qed.

Lemma config_invariant_witness :
  newFromEnvironment (processEnv true) = inr desired
  ∧ VaultTokenPath desired ≠ "" ∧ 0 < size (Secrets desired).
Proof.
  assert (newFromEnvironment (processEnv true) = inr desired) as Hc by (by vm_compute).
  split; [exact Hc|].
  destruct (config_invariant (processEnv true) desired Hc) as (_ & Hp & _ & Hs & _).
  by split.
Defined.

(** X5.  [checkSecrets] asks for the secrets one by one in the order of the
    visit and changes nothing.  If every query succeeds it has asked for all
    of them and returns nil; at the first query that fails it returns the
    error naming that secret, and the entries after it are not asked for. *)
Theorem checkSecrets_trace env order s :
  ((∀ i k v, order !! i = Some (k, v) → resolves env s i k) →
   checkSecrets env order s
   = (Returns None, mkState (local s) (heap s) (trace s ++ (asked <$> order))))
  ∧ (∀ pre k v post e,
       order = pre ++ (k, v) :: post →
       (∀ i k' v', pre !! i = Some (k', v') → resolves env s i k') →
       answer env (now s + length pre) (mustExist (local s) k) = Some e →
       checkSecrets env order s
       = (Returns (Some (Errorf ("secret " +:+ k +:+ " does not exist"))),
          mkState (local s) (heap s)
            (trace s ++ (asked <$> pre) ++ [Called (SecretsGet k) (Some e)]))).
Proof.
  split.
  - intros Hres. rewrite <- (app_nil_r order) at 1. by rewrite checkSecrets_prefix.
  - intros pre k v post e -> Hres Herr. rewrite checkSecrets_prefix by done. simpl.
    unfold bind, secretsGet, now, record. simpl.
    rewrite length_app, length_fmap. unfold now in Herr. rewrite Herr. simpl.
    by rewrite <- app_assoc.
Qed.

(** X6.  The conversion of a payload succeeds exactly when its ["data"] entry
    is a map whose values are all strings: it then gives one field for every
    key of the map, holding the bytes of its string, and nothing else; it
    panics exactly when there is no such map or one of its values is no
    string. *)
Theorem convertData_spec (sdata : gmap string untyped) :
  (∀ strs : gmap string string,
     sdata !! "data" = Some (UMap (VString <$> strs)) →
     convertData sdata = Some (list_byte_of_string <$> strs))
  ∧ (∀ data, convertData sdata = Some data →
       ∃ strs : gmap string string,
         sdata !! "data" = Some (UMap (VString <$> strs))
         ∧ data = list_byte_of_string <$> strs)
  ∧ (convertData sdata = None ↔
       (∀ fields, sdata !! "data" ≠ Some (UMap fields))
       ∨ ∃ fields k, sdata !! "data" = Some (UMap fields) ∧ fields !! k = Some VOther).
Proof.
  unfold convertData. split_and!.
  - intros strs ->. rewrite decide_True.
    + by rewrite omap_toBytes_strings.
    + intros k x. rewrite lookup_fmap. destruct (strs !! k); simpl; [|done].
      intros [= <-]. by eexists.
  - intros data. destruct (sdata !! "data") as [[fields|]|]; [|done..].
    destruct (decide (map_Forall _ fields)) as [Hall|]; [|done]. intros [= <-].
    destruct (strings_fields fields Hall) as [strs ->]. exists strs.
    by rewrite omap_toBytes_strings.
  - destruct (sdata !! "data") as [[fields|]|] eqn:Hd.
    + destruct (decide (map_Forall _ fields)) as [Hall|Hnot].
      * split; [done|]. intros [Hno|(fields' & k & [= <-] & Hk)].
        -- by destruct (Hno fields).
        -- destruct (Hall k VOther Hk) as [b Hb]. done.
      * split; [|done]. intros _. right. exists fields.
        apply map_not_Forall in Hnot as (k & x & Hk & Hx); [|apply _].
        exists k. split; [done|]. destruct x as [s|]; [|done]. destruct Hx. by eexists.
    + split; [|done]. intros _. by left.
    + split; [|done]. intros _. by left.
Qed.

(** X7.  A nil secret without an error, or a payload of another shape, makes
    the process panic right after the read, with exit status 2 and no error
    logged: the entries applied before stay, and no further call is made. *)
Theorem main_panics_on_payload os env c token st pre k v post s1 :
  newFromEnvironment os = inr c →
  loadToken os c = inr token →
  applied env st pre s1 →
  (vault env (now s1) v = ReadNil
   ∨ ∃ sdata, vault env (now s1) v = ReadSecret sdata ∧ convertData sdata = None) →
  main os env (pre ++ (k, v) :: post) st = (mkExit 2 None, record (VaultRead v) None s1).
Proof.
  intros Hc Ht Hpre Hv. unfold main, runMain. rewrite Hc, Ht.
  rewrite (synchronize_from env c token st pre _ s1 Hpre). simpl.
  unfold bind, synchronizeEntry, bind, vaultRead.
  destruct Hv as [->|(sdata & -> & Hcv)]; simpl; [done|]. by rewrite Hcv.
Qed.

Lemma main_panics_witness :
  newFromEnvironment (processEnv true) = inr desired
  ∧ loadToken (processEnv true) desired = inr "s.token"
  ∧ applied (absent "kv/x") namespace0 [("a", "kv/a")] (afterFirst (absent "kv/x") namespace0)
  ∧ vault (absent "kv/x") (now (afterFirst (absent "kv/x") namespace0)) "kv/x" = ReadNil
  ∧ main (processEnv true) (absent "kv/x") threeEntries namespace0
    = (mkExit 2 None,
       record (VaultRead "kv/x") None (afterFirst (absent "kv/x") namespace0)).
Proof.
  split; [by vm_compute|]. split; [by vm_compute|].
  split; [by vm_compute|]. split; [by vm_compute|].
  apply (main_panics_on_payload (processEnv true) (absent "kv/x") desired "s.token"
           namespace0 [("a", "kv/a")] "b" "kv/x" [("d", "kv/d")]).
  - by vm_compute.
  - by vm_compute.
  - by vm_compute.
  - left. by vm_compute.
Defined.

(** An item that ends in a colon gives the empty local name, which is no name
    for Kubernetes: the client library refuses the [Get], then the [Update]
    the program tries since the error is not a not-found one, and the process
    ends with status 1 and that error. *)
Example empty_name_is_refused :
  parseSecrets "kv/a:" = {[ "" := "kv/a" ]}
  ∧ validName "" = false
  ∧ (main unnamed refusingEmptyName [("", "kv/a")] (mkState ∅ [] [])).1
    = mkExit 1 (Some (Wrap emptyName "failed to synchronize secrets"))
  ∧ local (main unnamed refusingEmptyName [("", "kv/a")] (mkState ∅ [] [])).2 = ∅.
Proof. split_and!; by vm_compute. Qed.

(** X8.  When the configuration and the token are there, the local names are
    names Kubernetes accepts, every call to its client is served and every
    payload has the expected shape, the process exits with status 0 and the
    namespace is the reconciled one: the object built for every desired name,
    the unmanaged secrets under the other names, and nothing else. *)
Theorem main_reconciles os env order st c token payload :
  newFromEnvironment os = inr c →
  loadToken os c = inr token →
  order ≡ₚ map_to_list (Secrets c) →
  map_Forall (fun k _ => validName k = true) (Secrets c) →
  (∀ n, k8sFault env n = None) →
  (∀ n k v, Secrets c !! k = Some v → ∃ sdata,
     vault env n v = ReadSecret sdata ∧ convertData sdata = Some (payload v)) →
  ∃ st',
    main os env order st = (mkExit 0 None, st')
    ∧ local st' = reconciled (Secrets c) payload (local st).
Proof.
  intros Hc Ht Hperm _ Hserved Hvault. unfold main, runMain. rewrite Hc, Ht.
  destruct (healthy_synchronize env Hserved c order token st payload Hperm Hvault)
    as (st' & Hrun & Hloc).
  rewrite Hrun. by exists st'.
Qed.

Lemma main_reconciles_witness :
  newFromEnvironment (processEnv true) = inr desired
  ∧ loadToken (processEnv true) desired = inr "s.token"
  ∧ map_Forall (fun k _ => validName k = true) (Secrets desired)
  ∧ ∃ st',
      main (processEnv true) quiet desiredOrder namespace0 = (mkExit 0 None, st')
      ∧ local st' = reconciled (Secrets desired) password (local namespace0).
Proof.
  split; [by vm_compute|]. split; [by vm_compute|].
  split; [apply (bool_decide_unpack _); by vm_compute|].
  apply (main_reconciles (processEnv true) quiet desiredOrder namespace0 desired "s.token").
  - by vm_compute.
  - by vm_compute.
  - by vm_compute.
  - apply (bool_decide_unpack _). by vm_compute.
  - reflexivity.
  - intros n k v _. apply okVault_payload.
Defined.

(** X9.  With such names and on such an environment the order in which
    [range] visits the map does not matter: two runs from the same namespace
    over two orders both return nil and leave the same namespace. *)
Theorem visiting_order_irrelevant env c order1 order2 token st payload :
  order1 ≡ₚ map_to_list (Secrets c) →
  order2 ≡ₚ map_to_list (Secrets c) →
  map_Forall (fun k _ => validName k = true) (Secrets c) →
  (∀ n, k8sFault env n = None) →
  (∀ n k v, Secrets c !! k = Some v → ∃ sdata,
     vault env n v = ReadSecret sdata ∧ convertData sdata = Some (payload v)) →
  ∃ st1 st2,
    synchronize env c order1 token st = (Returns None, st1)
    ∧ synchronize env c order2 token st = (Returns None, st2)
    ∧ local st1 = local st2.
Proof.
  intros Hperm1 Hperm2 _ Hserved Hvault.
  destruct (healthy_synchronize env Hserved c order1 token st payload Hperm1 Hvault)
    as (st1 & Hrun1 & Hloc1).
  destruct (healthy_synchronize env Hserved c order2 token st payload Hperm2 Hvault)
    as (st2 & Hrun2 & Hloc2).
  exists st1, st2. split_and!; try done. congruence.
Qed.

Lemma visiting_order_witness :
  desiredOrder ≡ₚ map_to_list (Secrets desired)
  ∧ reverse desiredOrder ≡ₚ map_to_list (Secrets desired)
  ∧ map_Forall (fun k _ => validName k = true) (Secrets desired)
  ∧ ∃ st1 st2,
      synchronize quiet desired desiredOrder "s.token" namespace0 = (Returns None, st1)
      ∧ synchronize quiet desired (reverse desiredOrder) "s.token" namespace0
        = (Returns None, st2)
      ∧ local st1 = local st2.
Proof.
  split; [by vm_compute|]. split; [vm_compute; apply perm_swap|].
  split; [apply (bool_decide_unpack _); by vm_compute|].
  apply (visiting_order_irrelevant quiet desired desiredOrder (reverse desiredOrder)
           "s.token" namespace0 password).
  - by vm_compute.
  - vm_compute; apply perm_swap.
  - apply (bool_decide_unpack _). by vm_compute.
  - reflexivity.
  - intros n k v _. apply okVault_payload.
Defined.

(** X10.  Whatever happens during a run, a secret that exists under a desired
    name is never removed, and a secret under any other name is either left
    exactly as it was or, if it carried the marker, deleted. *)
Theorem run_frame env c order token st out st' name :
  order ≡ₚ map_to_list (Secrets c) →
  synchronize env c order token st = (out, st') →
  (is_Some (Secrets c !! name) → is_Some (local st !! name) → is_Some (local st' !! name))
  ∧ (Secrets c !! name = None →
       local st' !! name = local st !! name
       ∨ (local st' !! name = None ∧ ∃ o, local st !! name = Some o ∧ managed o)).
Proof.
  intros Hperm Hrun. apply range_entries in Hperm as [_ Hin].
  rewrite synchronize_run in Hrun.
  destruct (synchronizeEntries env _ order _) as [o1 s1] eqn:Hloop.
  destruct (synchronizeEntries_summary env _ _ _ _ _ (makeMap_annotationsAt st) Hloop)
    as (_ & _ & _ & Hframe & _).
  destruct (synchronizeEntries_keeps env _ _ _ _ _ (makeMap_annotationsAt st) Hloop)
    as [Hkeeps _].
  simpl in Hframe, Hkeeps.
  assert (Hundesired : Secrets c !! name = None → local s1 !! name = local st !! name).
  { intros Hs. apply Hframe. intros ([k v] & -> & Hkv)%list_elem_of_fmap.
    apply Hin in Hkv. simpl in Hs. congruence. }
  assert (Hstop : local st' = local s1 →
    (is_Some (Secrets c !! name) → is_Some (local st !! name) → is_Some (local st' !! name))
    ∧ (Secrets c !! name = None →
         local st' !! name = local st !! name
         ∨ (local st' !! name = None ∧ ∃ o, local st !! name = Some o ∧ managed o))).
  { intros ->. split; [intros _; apply Hkeeps|]. intros Hs. left. by apply Hundesired. }
  destruct o1 as [[e|]| |n]; try (apply Hstop; by injection Hrun as <- <-).
  pose proof (cleanup_run env (Secrets c) s1) as Hc.
  destruct (k8sFault env (now s1)) as [e|].
  { apply Hstop. rewrite Hrun in Hc. by injection Hc as -> ->. }
  clear Hstop. destruct Hc as (s2 & dels & Hrun2 & _ & _ & Hcalls & Hsub & _ & Hkeep).
  rewrite Hrun in Hrun2. injection Hrun2 as -> <-.
  split.
  - intros [v Hv] Hsome. rewrite Hkeep; [by apply Hkeeps|]. intros Hev.
    destruct (deletes_obsolete _ _ _ _ _ Hcalls Hev) as (o' & _ & _ & Hs). congruence.
  - intros Hs. rewrite <- (Hundesired Hs).
    destruct (local st' !! name) as [o|] eqn:Ho.
    { left. symmetry. by apply Hsub. }
    destruct (local s1 !! name) as [o|] eqn:Ho1; [|by left].
    destruct (decide (managed o)) as [Hman|Hun].
    + right. split; [done|]. by exists o.
    + left. rewrite <- Ho, <- Ho1. apply Hkeep. intros Hev.
      destruct (deletes_obsolete _ _ _ _ _ Hcalls Hev) as (o' & Ho' & Hman & _). congruence.
Qed.

Lemma run_frame_witness :
  desiredOrder ≡ₚ map_to_list (Secrets desired)
  ∧ Secrets desired !! "c" = None
  ∧ local (synchronize quiet desired desiredOrder "s.token" namespace0).2 !! "c" = None
  ∧ (local (synchronize quiet desired desiredOrder "s.token" namespace0).2 !! "c"
     = local namespace0 !! "c"
     ∨ (local (synchronize quiet desired desiredOrder "s.token" namespace0).2 !! "c" = None
        ∧ ∃ o, local namespace0 !! "c" = Some o ∧ managed o)).
Proof.
  split; [by vm_compute|]. split; [by vm_compute|]. split; [by vm_compute|].
  apply (run_frame quiet desired desiredOrder "s.token" namespace0 (Returns None)).
  - by vm_compute.
  - by vm_compute.
  - by vm_compute.
Defined.

(** X11.  A run makes exactly one map, the annotation map of its loop, which
    never holds another key than the marker, and writes to no map that
    existed before. *)
Theorem heap_frame env c order token st out st' :
  synchronize env c order token st = (out, st') →
  length (heap st') = S (length (heap st))
  ∧ (∀ l, l < length (heap st) → heap st' !! l = heap st !! l)
  ∧ ∃ m, heap st' !! length (heap st) = Some m ∧ dom m ⊆ {[vaultAnnotation]}.
Proof.
  intros Hrun. rewrite synchronize_run in Hrun.
  destruct (synchronizeEntries env _ order _) as [o1 s1] eqn:Hloop.
  destruct (synchronizeEntries_summary env _ _ _ _ _ (makeMap_annotationsAt st) Hloop)
    as (Hann & Hlen & _).
  destruct (synchronizeEntries_keeps env _ _ _ _ _ (makeMap_annotationsAt st) Hloop)
    as [_ Hheap].
  simpl in Hlen, Hheap. rewrite length_app in Hlen. simpl in Hlen.
  assert (heap st' = heap s1) as ->.
  { destruct o1 as [[e|]| |n]; try by injection Hrun as <- <-.
    pose proof (cleanup_run env (Secrets c) s1) as Hc.
    destruct (k8sFault env (now s1)) as [e|].
    - rewrite Hrun in Hc. by injection Hc as -> ->.
    - destruct Hc as (s2 & dels & Hrun2 & Hh & _). rewrite Hrun in Hrun2.
      by injection Hrun2 as -> <-. }
  split_and!.
  - lia.
  - intros l Hl. rewrite Hheap by lia. by apply lookup_app_l.
  - exact Hann.
Qed.

Lemma heap_frame_witness :
  synchronize quiet desired desiredOrder "s.token" namespace0
  = (Returns None, (synchronize quiet desired desiredOrder "s.token" namespace0).2)
  ∧ length (heap (synchronize quiet desired desiredOrder "s.token" namespace0).2)
    = S (length (heap namespace0)).
Proof.
  assert (synchronize quiet desired desiredOrder "s.token" namespace0
          = (Returns None, (synchronize quiet desired desiredOrder "s.token" namespace0).2))
    as Hrun by (by vm_compute).
  split; [exact Hrun|].
  by destruct (heap_frame quiet desired desiredOrder "s.token" namespace0 _ _ Hrun)
    as (Hlen & _).
Defined.

(** X12.  With names Kubernetes accepts and every call served, a run takes
    over whatever secret it finds under a desired name, be it one without the
    marker: the object it writes there is managed, and a later run whose
    mapping no longer has that name deletes it. *)
Theorem adopted_secret_is_deleted env c1 c2 order1 order2 token st payload k v :
  order1 ≡ₚ map_to_list (Secrets c1) →
  order2 ≡ₚ map_to_list (Secrets c2) →
  map_Forall (fun k _ => validName k = true) (Secrets c1) →
  map_Forall (fun k _ => validName k = true) (Secrets c2) →
  (∀ n, k8sFault env n = None) →
  (∀ n k' src, Secrets c1 !! k' = Some src ∨ Secrets c2 !! k' = Some src →
     ∃ sdata, vault env n src = ReadSecret sdata ∧ convertData sdata = Some (payload src)) →
  Secrets c1 !! k = Some v →
  Secrets c2 !! k = None →
  ∃ st1 st2,
    synchronize env c1 order1 token st = (Returns None, st1)
    ∧ synchronize env c2 order2 token st1 = (Returns None, st2)
    ∧ local st1 !! k = Some (built (payload v) v)
    ∧ local st2 !! k = None.
Proof.
  intros Hperm1 Hperm2 _ _ Hserved Hvault Hk1 Hk2.
  destruct (healthy_synchronize env Hserved c1 order1 token st payload Hperm1)
    as (st1 & Hrun1 & Hloc1).
  { intros n k' v' Hkv. apply (Hvault n k'). by left. }
  destruct (healthy_synchronize env Hserved c2 order2 token st1 payload Hperm2)
    as (st2 & Hrun2 & Hloc2).
  { intros n k' v' Hkv. apply (Hvault n k'). by right. }
  exists st1, st2. split_and!; try done.
  - rewrite Hloc1. unfold reconciled. apply lookup_union_Some_l.
    by rewrite lookup_fmap, Hk1.
  - rewrite Hloc2. unfold reconciled. apply lookup_union_None. split.
    + by rewrite lookup_fmap, Hk2.
    + apply map_lookup_filter_None. right. intros o Ho Hun. apply Hun. simpl.
      rewrite Hloc1 in Ho. unfold reconciled in Ho.
      erewrite lookup_union_Some_l in Ho; [|by rewrite lookup_fmap, Hk1].
      injection Ho as <-. apply built_managed.
Qed.

Lemma adopted_secret_witness :
  Secrets desired !! "a" = Some "kv/a"
  ∧ Secrets desiredLater !! "a" = None
  ∧ map_Forall (fun k _ => validName k = true) (Secrets desired)
  ∧ map_Forall (fun k _ => validName k = true) (Secrets desiredLater)
  ∧ ∃ st1 st2,
      synchronize quiet desired desiredOrder "s.token" (mkState {[ "a" := unmanaged ]} [] [])
      = (Returns None, st1)
      ∧ synchronize quiet desiredLater [("b", "kv/x")] "s.token" st1 = (Returns None, st2)
      ∧ local st1 !! "a" = Some (built (password "kv/a") "kv/a")
      ∧ local st2 !! "a" = None.
Proof.
  split; [by vm_compute|]. split; [by vm_compute|].
  split; [apply (bool_decide_unpack _); by vm_compute|].
  split; [apply (bool_decide_unpack _); by vm_compute|].
  apply (adopted_secret_is_deleted quiet desired desiredLater desiredOrder [("b", "kv/x")]
           "s.token" (mkState {[ "a" := unmanaged ]} [] []) password "a" "kv/a").
  - by vm_compute.
  - by vm_compute.
  - apply (bool_decide_unpack _). by vm_compute.
  - apply (bool_decide_unpack _). by vm_compute.
  - reflexivity.
  - intros n k' src _. apply okVault_payload.
  - by vm_compute.
  - by vm_compute.
Defined.

(** X13.  The configuration is refused with the error of line 81 exactly when
    the token path is set and [VAULT_SECRETS] is empty or made of commas only;
    and whenever the configuration is refused, the process ends with status 1
    and that error, wrapped, before any call is made. *)
Theorem no_secrets_rejected os env order st :
  (newFromEnvironment os = inl noSecrets
   ↔ Getenv os "VAULT_TOKEN_PATH" ≠ ""
     ∧ ∀ i a, String.get i (Getenv os "VAULT_SECRETS") = Some a → a = ","%char)
  ∧ (∀ err, newFromEnvironment os = inl err →
       main os env order st = (mkExit 1 (Some (Wrap err "failed to get config")), st)).
Proof.
  split.
  - rewrite <- tokens_empty, <- parseSecrets_empty.
    unfold newFromEnvironment, noSecrets. cbv zeta.
    destruct (decide (Getenv os "VAULT_TOKEN_PATH" = "")) as [Ht|Ht].
    { split; [done|]. by intros [? _]. }
    destruct (decide (size (parseSecrets (Getenv os "VAULT_SECRETS")) = 0)) as [Hz|Hz].
    { split; [|done]. intros _. split; [done|]. by apply map_size_empty_iff. }
    split.
    + destruct (ReadFile os namespaceFile) as [e1|content]; [done|].
      destruct (InClusterConfig os) as [e2|]; [done|].
      destruct (NewForConfig os) as [e3|]; [done|].
      destruct (ReadEnvironment os) as [e4|]; [done|].
      by destruct (NewClient os) as [e5|].
    + intros [_ He]. destruct Hz. by apply map_size_empty_iff.
  - intros err Herr. unfold main. by rewrite Herr.
Qed.

(** X14.  The process ends in one of three ways: with status 0 and no fatal
    error; with status 1 and a fatal error; or with status 2 by a panic, and
    then the last call made is a read of a desired source that returned no
    error. *)
Theorem exit_status os env order st :
  (code (main os env order st).1 = 0%Z ∧ fatal (main os env order st).1 = None)
  ∨ (code (main os env order st).1 = 1%Z ∧ is_Some (fatal (main os env order st).1))
  ∨ (code (main os env order st).1 = 2%Z ∧ fatal (main os env order st).1 = None
     ∧ ∃ v, v ∈ order.*2
            ∧ last (trace (main os env order st).2) = Some (Called (VaultRead v) None)).
Proof.
  unfold main.
  destruct (newFromEnvironment os) as [e|c]; [right; left; by split|].
  destruct (loadToken os c) as [e|token].
  - unfold runMain.
    destruct (checkSecrets_run env order st) as (out & s' & gets & Hrun & _).
    rewrite Hrun. destruct out; [right|]; left; by split.
  - unfold runMain. rewrite synchronize_run.
    destruct (synchronizeEntries env (length (heap st)) order (makeMap st).2)
      as [out s1] eqn:Hloop.
    pose proof (synchronizeEntries_outcome env _ _ _ _ _ (makeMap_annotationsAt st) Hloop)
      as Hout.
    destruct out as [[e|]| |n]; try done.
    + right; left. by split.
    + pose proof (cleanup_run env (Secrets c) s1) as Hc.
      destruct (k8sFault env (now s1)) as [e|].
      * rewrite Hc. left. by split.
      * destruct Hc as (s' & dels & Hrun & _). rewrite Hrun. left. by split.
    + right; right. simpl. split_and!; try done.
Qed.

(** X15.  A failed read aborts the run.  When the loop has applied the entries
    [pre] and Vault returns an error for the source of the next entry,
    [synchronize] returns that very error at once: the namespace is the one
    the applied entries left (each still holds the object built for it), the
    failed read is the last call of the run, so that no later entry is tried,
    and the run makes no [List] and no [Delete]. *)
Theorem fetch_failure_aborts env c token st pre k v post s1 e :
  applied env st pre s1 →
  vault env (now s1) v = ReadErr e →
  ∃ st',
    synchronize env c (pre ++ (k, v) :: post) token st = (Returns (Some e), st')
    ∧ local st' = local s1
    ∧ callsSince s1 st' = [Called (VaultRead v) (Some e)]
    ∧ Forall (fun ev => isList ev = false ∧ isDelete ev = false) (callsSince st st')
    ∧ (NoDup pre.*1 → ∀ k' v', (k', v') ∈ pre →
         ∃ data, local st' !! k' = Some (built data v')).
Proof.
  intros Hpre Hv. exists (record (VaultRead v) (Some e) s1).
  destruct (applied_summary env st pre s1 Hpre) as (_ & (new & Htr & Hnew) & _ & Hok).
  split_and!.
  - rewrite (synchronize_from env c token st pre _ s1 Hpre). simpl.
    unfold bind, synchronizeEntry, bind, vaultRead. by rewrite Hv.
  - done.
  - by apply callsSince_app.
  - rewrite (callsSince_app st _ (new ++ [Called (VaultRead v) (Some e)])).
    + apply Forall_app. split; [|by repeat constructor].
      eapply Forall_impl; [exact Hnew|]. apply loopCall_not_cleanup.
    + simpl. by rewrite Htr, <- app_assoc.
  - intros Hnd k' v' Hin. destruct (Hok Hnd k' v' Hin) as (n & sdata & data & _ & _ & Ho).
    by exists data.
Qed.

Lemma fetch_failure_witness :
  applied (refusing "kv/x") namespace0 [("a", "kv/a")] (afterFirst (refusing "kv/x") namespace0)
  ∧ vault (refusing "kv/x") (now (afterFirst (refusing "kv/x") namespace0)) "kv/x" = ReadErr denied
  ∧ ∃ st',
      synchronize (refusing "kv/x") desired threeEntries "s.token" namespace0
      = (Returns (Some denied), st')
      ∧ local st' = local (afterFirst (refusing "kv/x") namespace0)
      ∧ callsSince (afterFirst (refusing "kv/x") namespace0) st'
        = [Called (VaultRead "kv/x") (Some denied)]
      ∧ Forall (fun ev => isList ev = false ∧ isDelete ev = false) (callsSince namespace0 st')
      ∧ (NoDup [("a", "kv/a")].*1 → ∀ k' v', (k', v') ∈ [("a", "kv/a")] →
           ∃ data, local st' !! k' = Some (built data v')).
Proof.
  split; [by vm_compute|]. split; [by vm_compute|].
  apply (fetch_failure_aborts (refusing "kv/x") desired "s.token" namespace0
           [("a", "kv/a")] "b" "kv/x" [("d", "kv/d")]).
  - by vm_compute.
  - by vm_compute.
Defined.
